(** * Control Toolbox: LTI systems and the HPIPM transcription

    A shallow embedding of
      - ct/core/systems/LTISystem.h           (module [LTISystem])
      - ct/optcon/solver/lqp/HPIPMInterface.hpp (module [HPIPMInterface])

    Scalars ([double], [SCALAR]) are idealised as the elements of an
    ordered field [R] with exact arithmetic; fixed-size Eigen matrices
    [Eigen::Matrix<SCALAR, p, q>] are MathComp matrices ['M[R]_(p, q)],
    so that dimensions are carried by the types as the C++ templates do.
    A [std::vector] is a [seq] whose indexing fails outside the vector, a
    [double*] is the name of the buffer it points to, and a member
    function is a function from the object before the call to the result
    of the call, which is a value or an exception.

    The module [Binary64] repeats the numerical code of LTISystem.h, and
    the offset of the transcription, over IEEE 754 binary64 numbers: it
    shows on explicit inputs what rounding does to the statements that
    are proved over the exact field. *)

From Stdlib Require Import String.
From HB Require Import structures.
From mathcomp Require Import ssreflect ssrfun ssrbool eqtype ssrnat seq choice.
From mathcomp Require Import fintype finfun bigop order ssralg ssrnum ssrint rat.
From mathcomp Require Import matrix mxalgebra div.
From Stdlib Require PrimFloat FloatOps ZArith.

Set Implicit Arguments.
Unset Strict Implicit.
Unset Printing Implicit Defensive.

Import GRing.Theory Num.Theory Order.Theory.
Local Open Scope ring_scope.

(** ** Failure of a call

    The sources fail in two ways: by throwing [std::runtime_error] and by
    violating a precondition of the library they call (an Eigen block or
    a [std::vector] index out of range), which Eigen reports through
    [eigen_assert] and which is undefined behaviour otherwise. *)

Inductive exn : Type :=
  | runtime_error of string
  | eigen_assert
  | out_of_range
  | length_error.

Inductive result (T : Type) : Type :=
  | Ok of T
  | Raise of exn.

Arguments Ok {T} _.
Arguments Raise {T} _.

Definition bind (S T : Type) (r : result S) (k : S -> result T) : result T :=
  match r with
  | Ok v => k v
  | Raise e => Raise e
  end.

Notation "r >>= k" := (bind r k) (at level 58, left associativity).

(** The call returns normally, with a value that satisfies [Q]. *)
Definition returns (T : Type) (r : result T) (Q : T -> Prop) : Prop :=
  exists2 v, r = Ok v & Q v.

(** [for (size_t i = lo; i < hi; i++) body], threading the state. *)
Definition for_loop (S : Type) (lo hi : nat) (body : nat -> S -> result S)
    (s : S) : result S :=
  foldl (fun acc i => acc >>= body i) (Ok s) (iota lo (hi - lo)).

(** [v[i]] of a [std::vector]: defined only inside the vector. *)
Definition at_ (T : Type) (s : seq T) (i : nat) : result T :=
  if onth s i is Some v then Ok v else Raise out_of_range.

(** [v[i] = w] of a [std::vector]. *)
Definition assign (T : Type) (s : seq T) (i : nat) (w : T) : result (seq T) :=
  if (i < size s)%N then Ok (take i s ++ w :: drop i.+1 s)
  else Raise out_of_range.

(** [v.resize(k, fill)]: the first elements are kept, new ones are [fill]. *)
Definition resize (T : Type) (k : nat) (fill : T) (s : seq T) : seq T :=
  take k s ++ nseq (k - size s) fill.

(** The elements [lo <= j < hi] of a vector of size [N] hold [f j]. *)
Definition filled (T : Type) (N lo hi : nat) (f : nat -> T) (s : seq T) : Prop :=
  size s = N /\ forall j, (lo <= j < hi)%N -> at_ s j = Ok (f j).

Section Blocks.

Variable R : pzRingType.

(** Coefficient at natural-number indices (zero outside the matrix; every
    use below is guarded by a range check). *)
Definition coef (p q : nat) (M : 'M[R]_(p, q)) (i j : nat) : R :=
  if insub i is Some i' then
    if insub j is Some j' then M i' j' else 0
  else 0.

(** Precondition of [M.block<p, q>(r, c)] on a [rows x cols] matrix. *)
Definition block_in_range (rows cols p q r c : nat) : bool :=
  (r + p <= rows)%N && (c + q <= cols)%N.

(** Reading [M.block<p, q>(r, c)]. *)
Definition block_get (rows cols : nat) (p q : nat) (M : 'M[R]_(rows, cols))
    (r c : nat) : result 'M[R]_(p, q) :=
  if block_in_range rows cols p q r c then
    Ok (\matrix_(i < p, j < q) coef M (r + i) (c + j))
  else Raise eigen_assert.

(** The assignment [M.block<p, q>(r, c) = X]. *)
Definition block_set (rows cols : nat) (p q : nat) (M : 'M[R]_(rows, cols))
    (r c : nat) (X : 'M[R]_(p, q)) : result 'M[R]_(rows, cols) :=
  if block_in_range rows cols p q r c then
    Ok (\matrix_(i < rows, j < cols)
          if [&& r <= i, i < r + p, c <= j & j < c + q]%N
          then coef X (i - r) (j - c) else M i j)
  else Raise eigen_assert.

End Blocks.

(** [Pi^k] as the Gramian loops build it: [A_prev = A_prev * A_]. *)
Definition mxpow (R : pzRingType) (n : nat) (A : 'M[R]_n) (k : nat) : 'M[R]_n :=
  iter k (fun P => P *m A) 1%:M.

(** Eigen's [lpNorm<1>()]: the sum of the absolute values of the
    coefficients (what the sources call the matrix 1-norm; the norm
    induced by the vector 1-norm is [matrix_norm1] below). *)
Definition lpNorm1 (R : realFieldType) (p q : nat) (M : 'M[R]_(p, q)) : R :=
  \sum_i \sum_j `|M i j|.

Definition symmetric (R : pzRingType) (n : nat) (G : 'M[R]_n) : Prop :=
  G^T = G.

(** Positive semidefiniteness: the quadratic form is nowhere negative. *)
Definition psd (R : realFieldType) (n : nat) (G : 'M[R]_n) : Prop :=
  forall v : 'rV[R]_n, 0 <= (v *m G *m v^T) 0 0.

Inductive TIME_TYPE : Type := CONTINUOUS_TIME | DISCRETE_TIME.

Module LTISystem.

Section Def.

Variable R : realFieldType.
Variable MANIFOLD : Type.
Variable Time_t : Type.
Variables STATE_DIM CONTROL_DIM : nat.
Variable CONT_T : TIME_TYPE.

Local Notation state_matrix_t := 'M[R]_STATE_DIM.
Local Notation state_control_matrix_t := 'M[R]_(STATE_DIM, CONTROL_DIM).
Local Notation control_vector_t := 'cV[R]_CONTROL_DIM.

Record t : Type := Build {
  A_ : state_matrix_t;
  B_ : state_control_matrix_t;
  C_ : state_matrix_t;
  D_ : state_control_matrix_t
}.

(** [LTISystem()] *)
Definition default : t :=
  {| A_ := 0; B_ := 0; C_ := 0; D_ := 0 |}.

(** [LTISystem(A, B, C = Identity(), D = Zero())]; an argument left out
    is [None]. *)
Definition make (A : state_matrix_t) (B : state_control_matrix_t)
    (C : option state_matrix_t) (D : option state_control_matrix_t) : t :=
  {| A_ := A; B_ := B;
     C_ := if C is Some C' then C' else 1%:M;
     D_ := if D is Some D' then D' else 0 |}.

Definition getDerivativeState (sys : t) (x : MANIFOLD)
    (u : control_vector_t) (tn : Time_t) : state_matrix_t := A_ sys.

Definition getDerivativeControl (sys : t) (x : MANIFOLD)
    (u : control_vector_t) (tn : Time_t) : state_control_matrix_t := B_ sys.

(** [computeOutput(state, tn, control, output)]; the result is the value
    left in the reference [output]. *)
Definition computeOutput (sys : t) (state : MANIFOLD) (tn : Time_t)
    (control : control_vector_t) (output : 'cV[R]_STATE_DIM) :
    result 'cV[R]_STATE_DIM :=
  Raise (runtime_error "LTISystem: computeOutput() not ported to manifolds yet.").

Definition computeControllabilityMatrix (sys : t)
    (CO : 'M[R]_(STATE_DIM, STATE_DIM * CONTROL_DIM)) :
    result 'M[R]_(STATE_DIM, STATE_DIM * CONTROL_DIM) :=
  block_set CO 0 0 (B_ sys) >>=
  for_loop 1 STATE_DIM (fun i CO =>
    block_get STATE_DIM CONTROL_DIM CO 0 ((i - 1) * CONTROL_DIM) >>= fun blk =>
    block_set CO 0 (i * CONTROL_DIM) (A_ sys *m blk)).

(** [isControllable()]; [CO] is the content of the uninitialised local
    matrix. [FullPivLU::rank()] is idealised as the exact rank of the
    matrix; Eigen counts the pivots above a threshold, which
    [Binary64.FullPivLU.rank] does. *)
Definition isControllable (sys : t)
    (CO : 'M[R]_(STATE_DIM, STATE_DIM * CONTROL_DIM)) : result bool :=
  computeControllabilityMatrix sys CO >>= fun CO =>
  Ok (\rank CO == STATE_DIM).

Definition computeObservabilityMatrix (sys : t)
    (O : 'M[R]_(STATE_DIM, STATE_DIM * STATE_DIM)) :
    result 'M[R]_(STATE_DIM, STATE_DIM * STATE_DIM) :=
  block_set O 0 0 (C_ sys) >>=
  for_loop 1 STATE_DIM (fun i O =>
    block_get STATE_DIM STATE_DIM O 0 ((i - 1) * STATE_DIM) >>= fun blk =>
    block_set O (i * STATE_DIM) 0 (blk *m A_ sys)).

(** [isObservable()], with the exact rank for [FullPivLU::rank()] as in
    isControllable. *)
Definition isObservable (sys : t)
    (O : 'M[R]_(STATE_DIM, STATE_DIM * STATE_DIM)) : result bool :=
  computeObservabilityMatrix sys O >>= fun O =>
  Ok (\rank O == STATE_DIM).

(** The update of [CG] in the body of the controllability loop, in exact
    arithmetic; [Binary64.LTISystem.ctrb_update] is the rounded one. *)
Definition ctrb_update (sys : t) (CG_prev A_prev : state_matrix_t) :
    state_matrix_t :=
  CG_prev + A_prev *m B_ sys *m (B_ sys)^T *m A_prev^T.

(** [while (n_iters < max_iters)] of computeControllabilityGramian; the
    counter [n_iters] only counts, so the recursion is on
    [max_iters - n_iters]. *)
Fixpoint ctrb_while (sys : t) (tolerance : R) (remaining : nat)
    (CG_prev CG A_prev : state_matrix_t) : state_matrix_t :=
  if remaining is r.+1 then
    let CG := ctrb_update sys CG_prev A_prev in
    let norm1 := lpNorm1 (CG_prev - CG) in
    if norm1 < tolerance then CG
    else ctrb_while sys tolerance r CG CG (A_prev *m A_ sys)
  else CG.

(** Both [enable_if] overloads: the one compiled is chosen by [CONT_T]. *)
Definition computeControllabilityGramian (sys : t) (max_iters : nat)
    (tolerance : R) : result state_matrix_t :=
  match CONT_T with
  | DISCRETE_TIME => Ok (ctrb_while sys tolerance max_iters 0 0 1%:M)
  | CONTINUOUS_TIME =>
      Raise (runtime_error
        "Computation of controllability Gramian not implemented for continuous-time systems yet.")
  end.

(** The update of [OG], in exact arithmetic as well. *)
Definition obsv_update (sys : t) (OG_prev A_prev : state_matrix_t) :
    state_matrix_t :=
  OG_prev + A_prev^T *m (C_ sys)^T *m C_ sys *m A_prev.

Fixpoint obsv_while (sys : t) (tolerance : R) (remaining : nat)
    (OG_prev OG A_prev : state_matrix_t) : state_matrix_t :=
  if remaining is r.+1 then
    let OG := obsv_update sys OG_prev A_prev in
    let norm1 := lpNorm1 (OG_prev - OG) in
    if norm1 < tolerance then OG
    else obsv_while sys tolerance r OG OG (A_prev *m A_ sys)
  else OG.

Definition computeObservabilityGramian (sys : t) (max_iters : nat)
    (tolerance : R) : result state_matrix_t :=
  match CONT_T with
  | DISCRETE_TIME => Ok (obsv_while sys tolerance max_iters 0 0 1%:M)
  | CONTINUOUS_TIME =>
      Raise (runtime_error
        "Computation of observability Gramian not implemented for continuous-time systems yet.")
  end.

(** The iteration in the words of the specification: [G_0 = 0],
    [Pi_0 = I], [G_k = G_(k-1) + Pi_(k-1) B B^T Pi_(k-1)^T],
    [Pi_k = Pi_(k-1) A]; the pair is [(G_k, Pi_k)]. *)
Fixpoint ctrb_iterate (sys : t) (k : nat) : state_matrix_t * state_matrix_t :=
  if k is j.+1 then
    let: (G, P) := ctrb_iterate sys j in
    (G + P *m B_ sys *m (B_ sys)^T *m P^T, P *m A_ sys)
  else (0, 1%:M).

Fixpoint obsv_iterate (sys : t) (k : nat) : state_matrix_t * state_matrix_t :=
  if k is j.+1 then
    let: (G, P) := obsv_iterate sys j in
    (G + P^T *m (C_ sys)^T *m C_ sys *m P, P *m A_ sys)
  else (0, 1%:M).

(** The stopping test of the specification at iterate [k >= 1]: the
    1-norm of [G_k - G_(k-1)] is below the tolerance. *)
Definition ctrb_converged (sys : t) (tolerance : R) (k : nat) : bool :=
  lpNorm1 ((ctrb_iterate sys k).1 - (ctrb_iterate sys k.-1).1) < tolerance.

Definition obsv_converged (sys : t) (tolerance : R) (k : nat) : bool :=
  lpNorm1 ((obsv_iterate sys k).1 - (obsv_iterate sys k.-1).1) < tolerance.

(** [K] is the stopping index: the first iterate that passes the test,
    and [max_iters] when none up to there does. *)
Definition stops_at (converged : nat -> bool) (max_iters K : nat) : Prop :=
  [/\ (K <= max_iters)%N,
      forall j, (0 < j < K)%N -> ~~ converged j
    & K = max_iters \/ ((0 < K)%N /\ converged K)].

(** The closed forms: the sums of [A^k B B^T (A^k)^T] and of
    [(A^k)^T C^T C A^k] over [k < K]. *)
Definition ctrb_partial_sum (sys : t) (K : nat) : state_matrix_t :=
  \sum_(k < K) mxpow (A_ sys) k *m B_ sys *m (B_ sys)^T *m (mxpow (A_ sys) k)^T.

Definition obsv_partial_sum (sys : t) (K : nat) : state_matrix_t :=
  \sum_(k < K) (mxpow (A_ sys) k)^T *m (C_ sys)^T *m C_ sys *m mxpow (A_ sys) k.

End Def.

End LTISystem.

Module LQOCProblem.

Section Def.

Variable R : realFieldType.
Variables STATE_DIM CONTROL_DIM : nat.

Local Notation StateVector := 'cV[R]_STATE_DIM.
Local Notation ControlVector := 'cV[R]_CONTROL_DIM.
Local Notation StateMatrix := 'M[R]_STATE_DIM.
Local Notation ControlMatrix := 'M[R]_CONTROL_DIM.
Local Notation StateControlMatrix := 'M[R]_(STATE_DIM, CONTROL_DIM).
Local Notation FeedbackMatrix := 'M[R]_(CONTROL_DIM, STATE_DIM).

(** Modelled from the spec: the class LQOCProblem (LQOCProblem.hpp is not
    among the sources), with the members that setProblemImpl reads: the
    nominal trajectory [x_], [u_], the dynamics [A_], [B_], [b_] and the
    cost [P_] (cross term S), [qv_], [Q_], [rv_], [R_] per stage, and the
    number of stages [K_] returned by getNumberOfStages(). *)
Record t : Type := {
  K_ : int;
  x_ : seq StateVector;
  u_ : seq ControlVector;
  A_ : seq StateMatrix;
  B_ : seq StateControlMatrix;
  b_ : seq StateVector;
  P_ : seq FeedbackMatrix;
  qv_ : seq StateVector;
  Q_ : seq StateMatrix;
  rv_ : seq ControlVector;
  R_ : seq ControlMatrix
}.

Definition getNumberOfStages (p : t) : int := K_ p.

End Def.

End LQOCProblem.

Module HPIPMInterface.

(** A [double*] held by the interface: the buffer it points to. *)
Inductive dptr : Type :=
  | nullptr
  | data_x of nat
  | data_A of nat
  | data_B of nat
  | data_Q of nat
  | data_P of nat
  | data_R of nat
  | data_bEigen of nat
  | data_hb0
  | data_hqEigen of nat
  | data_hrEigen of nat
  | data_hr0
  | data_hx of nat
  | data_hpi of nat
  | data_hu of nat.

Section Def.

Variable R : realFieldType.
Variables STATE_DIM CONTROL_DIM : nat.

Local Notation StateVector := 'cV[R]_STATE_DIM.
Local Notation ControlVector := 'cV[R]_CONTROL_DIM.
Local Notation StateMatrix := 'M[R]_STATE_DIM.
Local Notation ControlMatrix := 'M[R]_CONTROL_DIM.
Local Notation StateControlMatrix := 'M[R]_(STATE_DIM, CONTROL_DIM).
Local Notation FeedbackMatrix := 'M[R]_(CONTROL_DIM, STATE_DIM).

(** What the HPIPM solver leaves in [qp_sol_] (the solver itself is the
    external library). *)
Record d_ocp_qp_sol : Type := {
  sol_u : nat -> ControlVector;
  sol_x : nat -> StateVector;
  sol_pi : nat -> StateVector
}.

(** Contents of freshly allocated Eigen vectors, which are not
    initialised. *)
Record indeterminate : Type := {
  fresh_state : StateVector;
  fresh_control : ControlVector
}.

Record t : Type := {
  N_ : int;
  nx_ : seq int;
  nu_ : seq int;
  nb_ : seq int;
  ng_ : seq int;
  hA_ : seq dptr;
  hB_ : seq dptr;
  bEigen_ : seq StateVector;
  hb_ : seq dptr;
  hb0_ : StateVector;
  hQ_ : seq dptr;
  hS_ : seq dptr;
  hR_ : seq dptr;
  hqEigen_ : seq StateVector;
  hq_ : seq dptr;
  hrEigen_ : seq ControlVector;
  hr_ : seq dptr;
  hr0_ : ControlVector;
  hd_lb_ : seq dptr;
  hd_ub_ : seq dptr;
  hd_lg_ : seq dptr;
  hd_ug_ : seq dptr;
  hC_ : seq dptr;
  hD_ : seq dptr;
  hidxb_ : seq dptr;
  x0_ : dptr;
  u_ : seq dptr;
  x_ : seq dptr;
  pi_ : seq dptr;
  lam_lb_ : seq dptr;
  lam_ub_ : seq dptr;
  lam_lg_ : seq dptr;
  lam_ug_ : seq dptr;
  hx_ : seq StateVector;
  hpi_ : seq StateVector;
  hu_ : seq ControlVector;
  qp_sol_ : d_ocp_qp_sol;
  lqocProblem_ : option (LQOCProblem.t R STATE_DIM CONTROL_DIM)
}.

(** [HPIPMInterface()]; [junk] is what the solver memory, which has no
    initialiser, holds. *)
Definition init (junk : d_ocp_qp_sol) : t :=
  {| N_ := -1; nx_ := [::]; nu_ := [::]; nb_ := [::]; ng_ := [::];
     hA_ := [::]; hB_ := [::]; bEigen_ := [::]; hb_ := [::]; hb0_ := 0;
     hQ_ := [::]; hS_ := [::]; hR_ := [::]; hqEigen_ := [::]; hq_ := [::];
     hrEigen_ := [::]; hr_ := [::]; hr0_ := 0;
     hd_lb_ := [::]; hd_ub_ := [::]; hd_lg_ := [::]; hd_ug_ := [::];
     hC_ := [::]; hD_ := [::]; hidxb_ := [::];
     x0_ := nullptr;
     u_ := [::]; x_ := [::]; pi_ := [::];
     lam_lb_ := [::]; lam_ub_ := [::]; lam_lg_ := [::]; lam_ug_ := [::];
     hx_ := [::]; hpi_ := [::]; hu_ := [::];
     qp_sol_ := junk; lqocProblem_ := None |}.

(** [getFeedback()] *)
Definition getFeedback (st : t) : result (seq FeedbackMatrix) :=
  Raise (runtime_error "not implemented").

(** [changeNumberOfStages(N)]. A negative [N] asks [resize] for more than
    a vector can hold. The calls that size and create HPIPM's own memory
    at the end of the function (and the prints) touch none of the members
    below and are left out. *)
Definition changeNumberOfStages (fresh : indeterminate) (N : int) (st : t) :
    result t :=
  if N is Posz n then
    let nx := resize n.+1 (Posz STATE_DIM) (nx_ st) in
    let nu := resize n.+1 (Posz CONTROL_DIM) (nu_ st) in
    let hx := resize n.+1 (fresh_state fresh) (hx_ st) in
    let hpi := resize n (fresh_state fresh) (hpi_ st) in
    let hu := resize n (fresh_control fresh) (hu_ st) in
    for_loop 0 n (fun i s =>
        let: (x, u) := s in
        assign x i.+1 (data_hx i.+1) >>= fun x =>
        assign u i (data_hu i) >>= fun u => Ok (x, u))
      (resize n.+1 nullptr (x_ st), resize n.+1 nullptr (u_ st))
    >>= fun s => let: (x, u) := s in
    for_loop 0 n (fun i pi => assign pi i (data_hpi i))
      (resize n nullptr (pi_ st)) >>= fun pi =>
    assign nx 0 0 >>= fun nx =>
    assign nu n 0 >>= fun nu =>
    Ok {| N_ := N; nx_ := nx; nu_ := nu;
          nb_ := resize n.+1 0 (nb_ st);
          ng_ := resize n.+1 0 (ng_ st);
          hA_ := resize n nullptr (hA_ st);
          hB_ := resize n nullptr (hB_ st);
          bEigen_ := resize n (fresh_state fresh) (bEigen_ st);
          hb_ := resize n nullptr (hb_ st);
          hb0_ := hb0_ st;
          hQ_ := resize n.+1 nullptr (hQ_ st);
          hS_ := resize n.+1 nullptr (hS_ st);
          hR_ := resize n.+1 nullptr (hR_ st);
          hqEigen_ := resize n.+1 (fresh_state fresh) (hqEigen_ st);
          hq_ := resize n.+1 nullptr (hq_ st);
          hrEigen_ := resize n.+1 (fresh_control fresh) (hrEigen_ st);
          hr_ := resize n.+1 nullptr (hr_ st);
          hr0_ := hr0_ st;
          hd_lb_ := resize n.+1 nullptr (hd_lb_ st);
          hd_ub_ := resize n.+1 nullptr (hd_ub_ st);
          hd_lg_ := resize n.+1 nullptr (hd_lg_ st);
          hd_ug_ := resize n.+1 nullptr (hd_ug_ st);
          hC_ := resize n.+1 nullptr (hC_ st);
          hD_ := resize n.+1 nullptr (hD_ st);
          hidxb_ := resize n.+1 nullptr (hidxb_ st);
          x0_ := x0_ st;
          u_ := u; x_ := x; pi_ := pi;
          lam_lb_ := resize n.+1 nullptr (lam_lb_ st);
          lam_ub_ := resize n.+1 nullptr (lam_ub_ st);
          lam_lg_ := resize n.+1 nullptr (lam_lg_ st);
          lam_ug_ := resize n.+1 nullptr (lam_ug_ st);
          hx_ := hx; hpi_ := hpi; hu_ := hu;
          qp_sol_ := qp_sol_ st; lqocProblem_ := lqocProblem_ st |}
  else Raise length_error.

Local Notation Problem := (LQOCProblem.t R STATE_DIM CONTROL_DIM).

(** [setupHPIPM(x, u, A, B, b, P, qv, Q, rv, R)]. The loop bound [i < N_]
    compares as [size_t]: with a negative [N_] other than the unset -1
    the loops leave every array. The offsets are the formulas of the
    source over the exact field: what is stated of them below is which
    formula the solver gets, and terms that cancel in exact arithmetic
    need not cancel in [double] ([Binary64.HPIPMInterface]). *)
Definition setupHPIPM (x : seq StateVector) (u : seq ControlVector)
    (A : seq StateMatrix) (B : seq StateControlMatrix) (b : seq StateVector)
    (P : seq FeedbackMatrix) (qv : seq StateVector) (Q : seq StateMatrix)
    (rv : seq ControlVector) (R' : seq ControlMatrix) (st : t) : result t :=
  match N_ st with
  | Negz 0 => Raise (runtime_error "Time horizon not set, please set it first")
  | Negz _ => Raise out_of_range
  | Posz N =>
    at_ x 0 >>= fun _ =>
    let x0 := data_x 0 in
    for_loop 0 N (fun i s =>
        let: (hA, hB, bEigen, hb) := s in
        at_ A i >>= fun _ => assign hA i (data_A i) >>= fun hA =>
        at_ B i >>= fun _ => assign hB i (data_B i) >>= fun hB =>
        at_ b i >>= fun bi => at_ x i.+1 >>= fun xi1 =>
        at_ A i >>= fun Ai => at_ x i >>= fun xi =>
        at_ B i >>= fun Bi => at_ u i >>= fun ui =>
        assign bEigen i (bi + xi1 - Ai *m xi - Bi *m ui) >>= fun bEigen =>
        assign hb i (data_bEigen i) >>= fun hb =>
        Ok (hA, hB, bEigen, hb))
      (hA_ st, hB_ st, bEigen_ st, hb_ st)
    >>= fun s => let: (hA, hB, bEigen, hb) := s in
    at_ b 0 >>= fun b0 => at_ x 1 >>= fun x1 =>
    at_ B 0 >>= fun B0 => at_ u 0 >>= fun u0 =>
    let hb0 := b0 + x1 - B0 *m u0 in
    assign hb 0 data_hb0 >>= fun hb =>
    for_loop 0 N (fun i s =>
        let: (hQ, hS, hR, hqEigen, hq, hrEigen, hr) := s in
        at_ Q i >>= fun Qi => assign hQ i (data_Q i) >>= fun hQ =>
        at_ P i >>= fun Pi => assign hS i (data_P i) >>= fun hS =>
        at_ R' i >>= fun Ri => assign hR i (data_R i) >>= fun hR =>
        at_ qv i >>= fun qi => at_ x i >>= fun xi => at_ u i >>= fun ui =>
        assign hqEigen i (qi - Qi *m xi - Pi^T *m ui) >>= fun hqEigen =>
        assign hq i (data_hqEigen i) >>= fun hq =>
        at_ rv i >>= fun ri =>
        assign hrEigen i (ri - Ri *m ui - Pi *m xi) >>= fun hrEigen =>
        assign hr i (data_hrEigen i) >>= fun hr =>
        Ok (hQ, hS, hR, hqEigen, hq, hrEigen, hr))
      (hQ_ st, hS_ st, hR_ st, hqEigen_ st, hq_ st, hrEigen_ st, hr_ st)
    >>= fun s => let: (hQ, hS, hR, hqEigen, hq, hrEigen, hr) := s in
    at_ Q N >>= fun QN => assign hQ N (data_Q N) >>= fun hQ =>
    assign hS N nullptr >>= fun hS =>
    assign hR N nullptr >>= fun hR =>
    at_ qv N >>= fun qN => at_ x N >>= fun xN =>
    assign hqEigen N (qN - QN *m xN) >>= fun hqEigen =>
    assign hq N (data_hqEigen N) >>= fun hq =>
    assign hr N nullptr >>= fun hr =>
    at_ hrEigen 0 >>= fun hrE0 => at_ P 0 >>= fun P0 =>
    at_ x 0 >>= fun x0v =>
    let hr0 := hrE0 + P0 *m x0v in
    assign hr 0 data_hr0 >>= fun hr =>
    Ok {| N_ := N_ st; nx_ := nx_ st; nu_ := nu_ st;
          nb_ := nb_ st; ng_ := ng_ st;
          hA_ := hA; hB_ := hB; bEigen_ := bEigen; hb_ := hb; hb0_ := hb0;
          hQ_ := hQ; hS_ := hS; hR_ := hR; hqEigen_ := hqEigen; hq_ := hq;
          hrEigen_ := hrEigen; hr_ := hr; hr0_ := hr0;
          hd_lb_ := hd_lb_ st; hd_ub_ := hd_ub_ st;
          hd_lg_ := hd_lg_ st; hd_ug_ := hd_ug_ st;
          hC_ := hC_ st; hD_ := hD_ st; hidxb_ := hidxb_ st;
          x0_ := x0;
          u_ := u_ st; x_ := x_ st; pi_ := pi_ st;
          lam_lb_ := lam_lb_ st; lam_ub_ := lam_ub_ st;
          lam_lg_ := lam_lg_ st; lam_ug_ := lam_ug_ st;
          hx_ := hx_ st; hpi_ := hpi_ st; hu_ := hu_ st;
          qp_sol_ := qp_sol_ st; lqocProblem_ := lqocProblem_ st |}
  end.

Definition setProblemImpl (fresh : indeterminate) (lqocProblem : Problem)
    (st : t) : result t :=
  changeNumberOfStages fresh (LQOCProblem.getNumberOfStages lqocProblem) st
  >>= setupHPIPM
        (LQOCProblem.x_ lqocProblem) (LQOCProblem.u_ lqocProblem)
        (LQOCProblem.A_ lqocProblem) (LQOCProblem.B_ lqocProblem)
        (LQOCProblem.b_ lqocProblem) (LQOCProblem.P_ lqocProblem)
        (LQOCProblem.qv_ lqocProblem) (LQOCProblem.Q_ lqocProblem)
        (LQOCProblem.rv_ lqocProblem) (LQOCProblem.R_ lqocProblem).

(** The solution buffers, the solver's answer and the problem replaced;
    every other member kept. *)
Definition with_solution (st : t) (hx hpi : seq StateVector)
    (hu : seq ControlVector) (sol : d_ocp_qp_sol) (pb : option Problem) : t :=
  {| N_ := N_ st; nx_ := nx_ st; nu_ := nu_ st; nb_ := nb_ st; ng_ := ng_ st;
     hA_ := hA_ st; hB_ := hB_ st; bEigen_ := bEigen_ st; hb_ := hb_ st;
     hb0_ := hb0_ st;
     hQ_ := hQ_ st; hS_ := hS_ st; hR_ := hR_ st; hqEigen_ := hqEigen_ st;
     hq_ := hq_ st; hrEigen_ := hrEigen_ st; hr_ := hr_ st; hr0_ := hr0_ st;
     hd_lb_ := hd_lb_ st; hd_ub_ := hd_ub_ st;
     hd_lg_ := hd_lg_ st; hd_ug_ := hd_ug_ st;
     hC_ := hC_ st; hD_ := hD_ st; hidxb_ := hidxb_ st;
     x0_ := x0_ st;
     u_ := u_ st; x_ := x_ st; pi_ := pi_ st;
     lam_lb_ := lam_lb_ st; lam_ub_ := lam_ub_ st;
     lam_lg_ := lam_lg_ st; lam_ug_ := lam_ug_ st;
     hx_ := hx; hpi_ := hpi; hu_ := hu;
     qp_sol_ := sol; lqocProblem_ := pb |}.

(** Modelled from the spec: setProblem of the base class LQOCSolver
    (LQOCSolver.hpp is not among the sources), which keeps the problem in
    [lqocProblem_] and hands it to setProblemImpl. *)
Definition setProblem (fresh : indeterminate) (lqocProblem : Problem)
    (st : t) : result t :=
  setProblemImpl fresh lqocProblem
    (with_solution st (hx_ st) (hpi_ st) (hu_ st) (qp_sol_ st)
       (Some lqocProblem)).

(** [solve()]: the two HPIPM calls leave the solver's answer [sol] in
    [qp_sol_]. *)
Definition solve (sol : d_ocp_qp_sol) (st : t) : t :=
  with_solution st (hx_ st) (hpi_ st) (hu_ st) sol (lqocProblem_ st).

(** HPIPM copies [cnt] doubles of a stage to the buffer behind a pointer;
    [cnt] is a stage dimension, and nothing is touched when it is 0. *)
Definition copy_state (cnt : int) (p : dptr) (v : StateVector)
    (s : seq StateVector * seq StateVector * seq ControlVector) :
    result (seq StateVector * seq StateVector * seq ControlVector) :=
  let: (hx, hpi, hu) := s in
  if cnt == 0 then Ok s else
  match p with
  | data_hx i => assign hx i v >>= fun hx => Ok (hx, hpi, hu)
  | data_hpi i => assign hpi i v >>= fun hpi => Ok (hx, hpi, hu)
  | _ => Raise out_of_range
  end.

Definition copy_control (cnt : int) (p : dptr) (v : ControlVector)
    (s : seq StateVector * seq StateVector * seq ControlVector) :
    result (seq StateVector * seq StateVector * seq ControlVector) :=
  let: (hx, hpi, hu) := s in
  if cnt == 0 then Ok s else
  match p with
  | data_hu i => assign hu i v >>= fun hu => Ok (hx, hpi, hu)
  | _ => Raise out_of_range
  end.

(** Modelled from the spec: HPIPM's d_cvt_ocp_qp_sol_to_colmaj (external
    library), which writes the controls, states and equality duals of
    [qp_sol_] stage by stage through [u_], [x_] and [pi_], with the
    horizon [N_] and the stage dimensions [nu_], [nx_] the problem was
    created with. *)
Definition d_cvt_ocp_qp_sol_to_colmaj (st : t) : result t :=
  if N_ st is Posz N then
    for_loop 0 N.+1 (fun ii s =>
        at_ (nu_ st) ii >>= fun nu => at_ (u_ st) ii >>= fun pu =>
        copy_control nu pu (sol_u (qp_sol_ st) ii) s >>= fun s =>
        at_ (nx_ st) ii >>= fun nx => at_ (x_ st) ii >>= fun px =>
        copy_state nx px (sol_x (qp_sol_ st) ii) s)
      (hx_ st, hpi_ st, hu_ st) >>=
    for_loop 0 N (fun ii s =>
        at_ (nx_ st) ii.+1 >>= fun nx => at_ (pi_ st) ii >>= fun pp =>
        copy_state nx pp (sol_pi (qp_sol_ st) ii) s)
    >>= fun s => let: (hx, hpi, hu) := s in
    Ok (with_solution st hx hpi hu (qp_sol_ st) (lqocProblem_ st))
  else Raise out_of_range.

(** [getSolutionState()]: the returned copy of [hx_] and the interface
    after the call. *)
Definition getSolutionState (st : t) : result (seq StateVector * t) :=
  d_cvt_ocp_qp_sol_to_colmaj st >>= fun st =>
  if lqocProblem_ st is Some pb then
    at_ (LQOCProblem.x_ pb) 0 >>= fun x0 =>
    assign (hx_ st) 0 x0 >>= fun hx =>
    Ok (hx, with_solution st hx (hpi_ st) (hu_ st) (qp_sol_ st)
              (lqocProblem_ st))
  else Raise out_of_range.

Definition getSolutionControl (st : t) : result (seq ControlVector * t) :=
  d_cvt_ocp_qp_sol_to_colmaj st >>= fun st => Ok (hu_ st, st).

(** The vector of [STATE_DIM] doubles behind a pointer, as the solver
    reads it. *)
Definition deref_state (st : t) (p : dptr) : result StateVector :=
  match p with
  | data_bEigen i => at_ (bEigen_ st) i
  | data_hb0 => Ok (hb0_ st)
  | data_hqEigen i => at_ (hqEigen_ st) i
  | data_hx i => at_ (hx_ st) i
  | data_hpi i => at_ (hpi_ st) i
  | data_x i =>
      if lqocProblem_ st is Some pb then at_ (LQOCProblem.x_ pb) i
      else Raise out_of_range
  | _ => Raise out_of_range
  end.

Definition deref_control (st : t) (p : dptr) : result ControlVector :=
  match p with
  | data_hrEigen i => at_ (hrEigen_ st) i
  | data_hr0 => Ok (hr0_ st)
  | data_hu i => at_ (hu_ st) i
  | _ => Raise out_of_range
  end.

(** The transcribed data of stage [i], as handed to the solver through
    [hb_], [hq_] and [hr_]. *)
Definition b_abs (st : t) (i : nat) : result StateVector :=
  at_ (hb_ st) i >>= deref_state st.

Definition q_abs (st : t) (i : nat) : result StateVector :=
  at_ (hq_ st) i >>= deref_state st.

Definition r_abs (st : t) (i : nat) : result ControlVector :=
  at_ (hr_ st) i >>= deref_control st.

(** A problem of horizon [N] as the specification has it: [N >= 1],
    [N + 1] stages of states and state costs, [N] stages of controls,
    dynamics and control costs. *)
Definition well_formed (N : nat) (pb : Problem) : bool :=
  [&& (0 < N)%N, LQOCProblem.K_ pb == Posz N,
      size (LQOCProblem.x_ pb) == N.+1, size (LQOCProblem.u_ pb) == N,
      size (LQOCProblem.A_ pb) == N, size (LQOCProblem.B_ pb) == N,
      size (LQOCProblem.b_ pb) == N, size (LQOCProblem.P_ pb) == N,
      size (LQOCProblem.qv_ pb) == N.+1, size (LQOCProblem.Q_ pb) == N.+1,
      size (LQOCProblem.rv_ pb) == N & size (LQOCProblem.R_ pb) == N].

(** The offsets in the words of the specification, for the stage data of
    a problem: [b_i + x_(i+1) - A_i x_i - B_i u_i], the first-stage
    [b_0 + x_1 - B_0 u_0], [q_i - Q_i x_i - S_i^T u_i],
    [r_i - R_i u_i - S_i x_i] and the terminal [q_N - Q_N x_N]. *)
Definition b_generic (pb : Problem) (i : nat) : StateVector :=
  nth 0 (LQOCProblem.b_ pb) i + nth 0 (LQOCProblem.x_ pb) i.+1
  - nth 0 (LQOCProblem.A_ pb) i *m nth 0 (LQOCProblem.x_ pb) i
  - nth 0 (LQOCProblem.B_ pb) i *m nth 0 (LQOCProblem.u_ pb) i.

Definition b_first (pb : Problem) : StateVector :=
  nth 0 (LQOCProblem.b_ pb) 0 + nth 0 (LQOCProblem.x_ pb) 1
  - nth 0 (LQOCProblem.B_ pb) 0 *m nth 0 (LQOCProblem.u_ pb) 0.

Definition q_generic (pb : Problem) (i : nat) : StateVector :=
  nth 0 (LQOCProblem.qv_ pb) i
  - nth 0 (LQOCProblem.Q_ pb) i *m nth 0 (LQOCProblem.x_ pb) i
  - (nth 0 (LQOCProblem.P_ pb) i)^T *m nth 0 (LQOCProblem.u_ pb) i.

Definition q_terminal (pb : Problem) (N : nat) : StateVector :=
  nth 0 (LQOCProblem.qv_ pb) N
  - nth 0 (LQOCProblem.Q_ pb) N *m nth 0 (LQOCProblem.x_ pb) N.

Definition r_generic (pb : Problem) (i : nat) : ControlVector :=
  nth 0 (LQOCProblem.rv_ pb) i
  - nth 0 (LQOCProblem.R_ pb) i *m nth 0 (LQOCProblem.u_ pb) i
  - nth 0 (LQOCProblem.P_ pb) i *m nth 0 (LQOCProblem.x_ pb) i.

(** The nominal trajectory satisfies the dynamics exactly: [b_i = 0] and
    [x_(i+1) = A_i x_i + B_i u_i] at every stage [i < N]. *)
Definition dynamics_consistent (N : nat) (pb : Problem) : Prop :=
  forall i, (i < N)%N ->
    nth 0 (LQOCProblem.b_ pb) i = 0
    /\ nth 0 (LQOCProblem.x_ pb) i.+1
       = nth 0 (LQOCProblem.A_ pb) i *m nth 0 (LQOCProblem.x_ pb) i
         + nth 0 (LQOCProblem.B_ pb) i *m nth 0 (LQOCProblem.u_ pb) i.

(** The interface after changeNumberOfStages(N): sizes and the pointers
    into the solution buffers. *)
Record configured (N : nat) (st : t) : Prop := Configured {
  cfg_N : N_ st = Posz N;
  cfg_nx : size (nx_ st) = N.+1 /\ at_ (nx_ st) 0 = Ok 0;
  cfg_nu : size (nu_ st) = N.+1 /\ at_ (nu_ st) N = Ok 0;
  cfg_x : filled N.+1 1 N.+1 data_hx (x_ st);
  cfg_u : filled N.+1 0 N data_hu (u_ st);
  cfg_pi : filled N 0 N data_hpi (pi_ st);
  cfg_hx : size (hx_ st) = N.+1;
  cfg_hpi : size (hpi_ st) = N;
  cfg_hu : size (hu_ st) = N;
  cfg_hA : size (hA_ st) = N;
  cfg_hB : size (hB_ st) = N;
  cfg_bEigen : size (bEigen_ st) = N;
  cfg_hb : size (hb_ st) = N;
  cfg_hQ : size (hQ_ st) = N.+1;
  cfg_hS : size (hS_ st) = N.+1;
  cfg_hR : size (hR_ st) = N.+1;
  cfg_hqEigen : size (hqEigen_ st) = N.+1;
  cfg_hq : size (hq_ st) = N.+1;
  cfg_hrEigen : size (hrEigen_ st) = N.+1;
  cfg_hr : size (hr_ st) = N.+1
}.

(** The interface after setupHPIPM on the arrays of [pb]. *)
Record transcribed (N : nat) (pb : Problem) (st : t) : Prop := Transcribed {
  tr_hA : filled N 0 N data_A (hA_ st);
  tr_hB : filled N 0 N data_B (hB_ st);
  tr_bEigen : filled N 0 N (b_generic pb) (bEigen_ st);
  tr_hb0 : hb0_ st = b_first pb;
  tr_hb : filled N 1 N data_bEigen (hb_ st) /\ at_ (hb_ st) 0 = Ok data_hb0;
  tr_hQ : filled N.+1 0 N.+1 data_Q (hQ_ st);
  tr_hS : filled N.+1 0 N data_P (hS_ st) /\ at_ (hS_ st) N = Ok nullptr;
  tr_hR : filled N.+1 0 N data_R (hR_ st) /\ at_ (hR_ st) N = Ok nullptr;
  tr_hqEigen : filled N.+1 0 N (q_generic pb) (hqEigen_ st)
               /\ at_ (hqEigen_ st) N = Ok (q_terminal pb N);
  tr_hq : filled N.+1 0 N.+1 data_hqEigen (hq_ st);
  tr_hrEigen : filled N.+1 0 N (r_generic pb) (hrEigen_ st);
  tr_hr0 : hr0_ st = r_generic pb 0
             + nth 0 (LQOCProblem.P_ pb) 0 *m nth 0 (LQOCProblem.x_ pb) 0;
  tr_hr : [/\ filled N.+1 1 N data_hrEigen (hr_ st),
              at_ (hr_ st) 0 = Ok data_hr0 & at_ (hr_ st) N = Ok nullptr];
  tr_x0 : x0_ st = data_x 0
}.

End Def.

End HPIPMInterface.

(** ** A problem of horizon 2 in dimension 1

    [x_0 = 1], [u_0 = 0], [u_1 = 1], [A_i = B_i = 1], [b_i = 0], so that
    [x_1 = 1] and [x_2 = 2] make the nominal trajectory satisfy the
    dynamics. *)

Definition example_problem : LQOCProblem.t rat 1 1 :=
  {| LQOCProblem.K_ := 2;
     LQOCProblem.x_ := [:: 1%:M; 1%:M; 1%:M + 1%:M];
     LQOCProblem.u_ := [:: 0; 1%:M];
     LQOCProblem.A_ := [:: 1%:M; 1%:M];
     LQOCProblem.B_ := [:: 1%:M; 1%:M];
     LQOCProblem.b_ := [:: 0; 0];
     LQOCProblem.P_ := [:: 1%:M; 1%:M];
     LQOCProblem.qv_ := [:: 0; 0; 0];
     LQOCProblem.Q_ := [:: 1%:M; 1%:M; 1%:M];
     LQOCProblem.rv_ := [:: 0; 0];
     LQOCProblem.R_ := [:: 1%:M; 1%:M] |}.

Definition example_solution : HPIPMInterface.d_ocp_qp_sol rat 1 1 :=
  {| HPIPMInterface.sol_u := fun _ => 0;
     HPIPMInterface.sol_x := fun _ => 0;
     HPIPMInterface.sol_pi := fun _ => 0 |}.

Definition example_fresh : HPIPMInterface.indeterminate rat 1 1 :=
  {| HPIPMInterface.fresh_state := 0; HPIPMInterface.fresh_control := 0 |}.

Definition example_interface : HPIPMInterface.t rat 1 1 :=
  HPIPMInterface.init example_solution.

(** A problem of horizon 2 whose nominal trajectory is zero, and one with
    no stage at all. *)

Definition example_zero_nominal : LQOCProblem.t rat 1 1 :=
  {| LQOCProblem.K_ := 2;
     LQOCProblem.x_ := [:: 0; 0; 0];
     LQOCProblem.u_ := [:: 0; 0];
     LQOCProblem.A_ := [:: 1%:M; 1%:M];
     LQOCProblem.B_ := [:: 1%:M; 1%:M];
     LQOCProblem.b_ := [:: 1%:M; 1%:M];
     LQOCProblem.P_ := [:: 1%:M; 1%:M];
     LQOCProblem.qv_ := [:: 1%:M; 1%:M; 1%:M];
     LQOCProblem.Q_ := [:: 1%:M; 1%:M; 1%:M];
     LQOCProblem.rv_ := [:: 1%:M; 1%:M];
     LQOCProblem.R_ := [:: 1%:M; 1%:M] |}.

Definition example_zero_horizon : LQOCProblem.t rat 1 1 :=
  {| LQOCProblem.K_ := 0;
     LQOCProblem.x_ := [:: 1%:M];
     LQOCProblem.u_ := [::];
     LQOCProblem.A_ := [::];
     LQOCProblem.B_ := [::];
     LQOCProblem.b_ := [::];
     LQOCProblem.P_ := [::];
     LQOCProblem.qv_ := [:: 0];
     LQOCProblem.Q_ := [:: 1%:M];
     LQOCProblem.rv_ := [::];
     LQOCProblem.R_ := [::] |}.


(** An answer of the solver whose stages differ from each other and from
    the values of [example_fresh]. *)
Definition example_answer : HPIPMInterface.d_ocp_qp_sol rat 1 1 :=
  {| HPIPMInterface.sol_u := fun i => (i.+1%:R)%:M;
     HPIPMInterface.sol_x := fun i => (i.+2%:R)%:M;
     HPIPMInterface.sol_pi := fun _ => 0 |}.

(** ** The stopping test in the words of the specification

    The matrix 1-norm proper, the norm induced by the vector 1-norm: the
    largest sum of the absolute values of a column. *)
Definition matrix_norm1 (R : realFieldType) (p q : nat) (M : 'M[R]_(p, q)) : R :=
  \big[Num.max/0]_j \sum_i `|M i j|.

(** The stopping test of the specification with that norm. *)
Definition ctrb_converged_matrix_norm1 (R : realFieldType) (n m : nat)
    (sys : LTISystem.t R n m) (tolerance : R) (k : nat) : bool :=
  matrix_norm1 ((LTISystem.ctrb_iterate sys k).1
                - (LTISystem.ctrb_iterate sys k.-1).1) < tolerance.

(** The system [A = B = I] of state dimension 2. *)
Definition example_identity_system : LTISystem.t rat 2 2 :=
  LTISystem.make 1%:M 1%:M None None.

(** The double integrator [A = [[0, 1], [0, 0]]], [B = (0, 1)^T]. *)
Definition example_double_integrator : LTISystem.t rat 2 1 :=
  LTISystem.make
    (\matrix_(i < 2, j < 2) ((i == 0 :> nat) && (j == 1 :> nat))%:R)
    (\matrix_(i < 2, j < 1) (i == 1 :> nat)%:R) None None.

(** ** The same code over binary64

    Above, [double] is an exact ordered field. The module below runs the
    numerical code of LTISystem.h, and the offset of setupHPIPM, over
    IEEE 754 binary64 numbers (Rocq's primitive floats), every
    multiplication, addition, subtraction and division rounded to
    nearest on its own, as a build without fused multiply-add does. A
    fixed-size Eigen matrix is the list of its rows; the dimensions,
    template parameters in the source, are arguments. The terms of a
    product's coefficient and of a norm are added from the first to the
    last; the order Eigen takes is its own, and no example at the end
    depends on it: where a sum there has more than two terms, all but
    one are zero or the sum is a norm far from the tolerance it is
    compared with. *)

Module Binary64.

Import PrimFloat.

Definition Matrix : Type := seq (seq float).

Definition generate (rows cols : nat) (f : nat -> nat -> float) : Matrix :=
  [seq [seq f i j | j <- iota 0 cols] | i <- iota 0 rows].

Definition coeff (M : Matrix) (i j : nat) : float :=
  nth zero (nth [::] M i) j.

Definition Zero (rows cols : nat) : Matrix :=
  generate rows cols (fun _ _ => zero).

Definition Identity (rows : nat) : Matrix :=
  generate rows rows (fun i j => if i == j then one else zero).

Definition plus (rows cols : nat) (X Y : Matrix) : Matrix :=
  generate rows cols (fun i j => add (coeff X i j) (coeff Y i j)).

Definition minus (rows cols : nat) (X Y : Matrix) : Matrix :=
  generate rows cols (fun i j => sub (coeff X i j) (coeff Y i j)).

(** [X.transpose()] of a [rows x cols] matrix. *)
Definition transpose (rows cols : nat) (X : Matrix) : Matrix :=
  generate cols rows (fun i j => coeff X j i).

(** [f 0 + f 1 + ... + f (k - 1)], from the left. *)
Definition sum (k : nat) (f : nat -> float) : float :=
  if k is k'.+1 then foldl (fun acc l => add acc (f l)) (f 0%N) (iota 1 k')
  else zero.

(** [X * Y] of a [rows x inner] and an [inner x cols] matrix. *)
Definition times (rows inner cols : nat) (X Y : Matrix) : Matrix :=
  generate rows cols (fun i j =>
    sum inner (fun l => mul (coeff X i l) (coeff Y l j))).

(** [X.lpNorm<1>()], the coefficients taken column by column. *)
Definition lpNorm1 (rows cols : nat) (X : Matrix) : float :=
  sum (cols * rows) (fun l => abs (coeff X (l %% rows) (l %/ rows))).

(** The exact value of a binary64 number times [2^s], where that is an
    integer. *)
Definition scaled (s : BinNums.Z) (x : float) : option BinNums.Z :=
  match FloatOps.Prim2SF x with
  | SpecFloat.S754_zero _ => Some BinNums.Z0
  | SpecFloat.S754_finite sg m e =>
      let k := BinInt.Z.add e s in
      let v := BinInt.Z.shiftl (BinNums.Zpos m) k in
      if BinInt.Z.eqb (BinInt.Z.shiftl v (BinInt.Z.opp k)) (BinNums.Zpos m)
      then Some (if sg then BinInt.Z.opp v else v)
      else None
  | _ => None
  end.

(** [v G v^T] times [2^s] for a row [v] of integers, computed exactly. *)
Definition quadratic_form (s : BinNums.Z) (G : Matrix) (v : seq BinNums.Z) :
    option BinNums.Z :=
  foldl (fun acc ij =>
           if acc is Some a then
             if scaled s (coeff G ij.1 ij.2) is Some g then
               Some (BinInt.Z.add a
                       (BinInt.Z.mul (BinInt.Z.mul (nth BinNums.Z0 v ij.1) g)
                          (nth BinNums.Z0 v ij.2)))
             else None
           else None)
        (Some BinNums.Z0)
        [seq (i, j) | i <- iota 0 (size v), j <- iota 0 (size v)].

(** The determinant of the columns [j1] and [j2] of a matrix of two rows,
    with the entries taken times [2^s], computed exactly. *)
Definition minor2 (s : BinNums.Z) (M : Matrix) (j1 j2 : nat) :
    option BinNums.Z :=
  match scaled s (coeff M 0 j1), scaled s (coeff M 1 j2),
        scaled s (coeff M 0 j2), scaled s (coeff M 1 j1) with
  | Some a, Some d, Some b, Some c =>
      Some (BinInt.Z.sub (BinInt.Z.mul a d) (BinInt.Z.mul b c))
  | _, _, _, _ => None
  end.

(** Eigen's [FullPivLU] (Eigen/src/LU/FullPivLU.h, a library the sources
    include), as far as [rank()] needs it: the decomposition with the
    pivots on the diagonal of [m_lu], the number of pivots found before
    the remaining corner was zero, and the largest pivot. *)
Module FullPivLU.

Section Def.

Variables rows cols : nat.

Record t : Type := Build {
  m_lu : Matrix;
  m_nonzero_pivots : nat;
  m_maxpivot : float
}.

(** [m_lu.bottomRightCorner(rows - k, cols - k).cwiseAbs().maxCoeff(&row,
    &col)]: the corner is visited column by column, and a coefficient
    replaces the largest so far only when it is strictly larger. *)
Definition maxCoeff (M : Matrix) (k : nat) : float * nat * nat :=
  foldl (fun best ij =>
           let v := abs (coeff M ij.1 ij.2) in
           if ltb best.1.1 v then (v, ij.1, ij.2) else best)
        (abs (coeff M k k), k, k)
        [seq (i, j) | j <- iota k (cols - k), i <- iota k (rows - k)].

Definition swap (a b i : nat) : nat :=
  if i == a then b else if i == b then a else i.

Definition row_swap (M : Matrix) (a b : nat) : Matrix :=
  generate rows cols (fun i j => coeff M (swap a b i) j).

Definition col_swap (M : Matrix) (a b : nat) : Matrix :=
  generate rows cols (fun i j => coeff M i (swap a b j)).

(** [m_lu.col(k).tail(rows - k - 1) /= m_lu.coeff(k, k)], then
    [m_lu.block(k + 1, k + 1, ...) -= m_lu.col(k).tail(...) *
    m_lu.row(k).tail(...)]. *)
Definition eliminate (M : Matrix) (k : nat) : Matrix :=
  let M1 := generate rows cols (fun i j =>
              if (k < i)%N && (j == k) then div (coeff M i k) (coeff M k k)
              else coeff M i j) in
  generate rows cols (fun i j =>
    if (k < i)%N && (k < j)%N
    then sub (coeff M1 i j) (mul (coeff M1 i k) (coeff M1 k j))
    else coeff M1 i j).

(** The loop [for (k = 0; k < size; ++k)] of [computeInPlace], which
    stops at the first [k] whose corner is zero; the recursion is on
    [size - k]. *)
Fixpoint computeInPlace (remaining k : nat) (M : Matrix) (maxpivot : float) :
    t :=
  if remaining is r.+1 then
    let: (biggest_in_corner, row, col) := maxCoeff M k in
    if eqb biggest_in_corner zero then Build M k maxpivot
    else
      let maxpivot :=
        if ltb maxpivot biggest_in_corner then biggest_in_corner
        else maxpivot in
      computeInPlace r k.+1
        (eliminate (col_swap (row_swap M k row) k col) k) maxpivot
  else Build M k maxpivot.

Definition compute (M : Matrix) : t :=
  computeInPlace (minn rows cols) 0 M zero.

(** [RealScalar(n)] of a size. *)
Definition of_size (k : nat) : float := iter k (add one) zero.

(** [threshold()]: [NumTraits<double>::epsilon() * diagonalSize()]. *)
Definition threshold : float := mul 0x1p-52%float (of_size (minn rows cols)).

(** [rank()]: the pivots larger than [abs(m_maxpivot) * threshold()]. *)
Definition rank (lu : t) : nat :=
  let premultiplied_threshold := mul (abs (m_maxpivot lu)) threshold in
  count (fun i => ltb premultiplied_threshold (abs (coeff (m_lu lu) i i)))
        (iota 0 (m_nonzero_pivots lu)).

End Def.

End FullPivLU.

Module LTISystem.

Section Def.

Variables STATE_DIM CONTROL_DIM : nat.

Record t : Type := Build {
  A_ : Matrix;
  B_ : Matrix;
  C_ : Matrix;
  D_ : Matrix
}.

(** [LTISystem(A, B, C = Identity(), D = Zero())]. *)
Definition make (A B : Matrix) (C D : option Matrix) : t :=
  {| A_ := A; B_ := B;
     C_ := if C is Some C' then C' else Identity STATE_DIM;
     D_ := if D is Some D' then D' else Zero STATE_DIM CONTROL_DIM |}.

Definition block (rows cols p q : nat) (M : Matrix) (r c : nat) :
    result Matrix :=
  if block_in_range rows cols p q r c then
    Ok (generate p q (fun i j => coeff M (r + i) (c + j)))
  else Raise eigen_assert.

Definition block_assign (rows cols p q : nat) (M : Matrix) (r c : nat)
    (X : Matrix) : result Matrix :=
  if block_in_range rows cols p q r c then
    Ok (generate rows cols (fun i j =>
          if [&& r <= i, i < r + p, c <= j & j < c + q]%N
          then coeff X (i - r) (j - c) else coeff M i j))
  else Raise eigen_assert.

Definition computeControllabilityMatrix (sys : t) (CO : Matrix) :
    result Matrix :=
  block_assign STATE_DIM (STATE_DIM * CONTROL_DIM) STATE_DIM CONTROL_DIM
    CO 0 0 (B_ sys) >>=
  for_loop 1 STATE_DIM (fun i CO =>
    block STATE_DIM (STATE_DIM * CONTROL_DIM) STATE_DIM CONTROL_DIM
      CO 0 ((i - 1) * CONTROL_DIM) >>= fun blk =>
    block_assign STATE_DIM (STATE_DIM * CONTROL_DIM) STATE_DIM CONTROL_DIM
      CO 0 (i * CONTROL_DIM)
      (times STATE_DIM STATE_DIM CONTROL_DIM (A_ sys) blk)).

(** [isControllable()]; [CO] is the content of the uninitialised local
    matrix. *)
Definition isControllable (sys : t) (CO : Matrix) : result bool :=
  computeControllabilityMatrix sys CO >>= fun CO =>
  Ok (FullPivLU.rank STATE_DIM (STATE_DIM * CONTROL_DIM)
        (FullPivLU.compute STATE_DIM (STATE_DIM * CONTROL_DIM) CO)
      == STATE_DIM).

Definition ctrb_update (sys : t) (CG_prev A_prev : Matrix) : Matrix :=
  plus STATE_DIM STATE_DIM CG_prev
    (times STATE_DIM STATE_DIM STATE_DIM
       (times STATE_DIM CONTROL_DIM STATE_DIM
          (times STATE_DIM STATE_DIM CONTROL_DIM A_prev (B_ sys))
          (transpose STATE_DIM CONTROL_DIM (B_ sys)))
       (transpose STATE_DIM STATE_DIM A_prev)).

Fixpoint ctrb_while (sys : t) (tolerance : float) (remaining : nat)
    (CG_prev CG A_prev : Matrix) : Matrix :=
  if remaining is r.+1 then
    let CG := ctrb_update sys CG_prev A_prev in
    let norm1 := lpNorm1 STATE_DIM STATE_DIM
                   (minus STATE_DIM STATE_DIM CG_prev CG) in
    if ltb norm1 tolerance then CG
    else ctrb_while sys tolerance r CG CG
           (times STATE_DIM STATE_DIM STATE_DIM A_prev (A_ sys))
  else CG.

(** The discrete-time overload. *)
Definition computeControllabilityGramian (sys : t) (max_iters : nat)
    (tolerance : float) : Matrix :=
  ctrb_while sys tolerance max_iters (Zero STATE_DIM STATE_DIM)
    (Zero STATE_DIM STATE_DIM) (Identity STATE_DIM).

End Def.

End LTISystem.

Module HPIPMInterface.

Section Def.

Variables STATE_DIM CONTROL_DIM : nat.

(** The value setupHPIPM gives [bEigen_[i]]:
    [b[i] + x[i+1] - A[i]*x[i] - B[i] * u[i]]. *)
Definition bEigen_value (b x_next A x B u : Matrix) : Matrix :=
  minus STATE_DIM 1
    (minus STATE_DIM 1 (plus STATE_DIM 1 b x_next)
       (times STATE_DIM STATE_DIM 1 A x))
    (times STATE_DIM CONTROL_DIM 1 B u).

(** The value setupHPIPM gives [hb0_]: [b[0] + x[1] - B[0] * u[0]]. *)
Definition hb0_value (b x_next B u : Matrix) : Matrix :=
  minus STATE_DIM 1 (plus STATE_DIM 1 b x_next)
    (times STATE_DIM CONTROL_DIM 1 B u).

End Def.

End HPIPMInterface.

(** *** Inputs of the examples *)

(** The default arguments [max_iters = 100] and [tolerance = 1e-9] of the
    Gramians, the latter as the nearest binary64 number. *)
Definition default_max_iters : nat := 100.

Definition default_tolerance : float := 0x1.12e0be826d695p-30%float.

(** [A = 0], [B = (1 + 2^-30, 1)^T]. *)
Definition example_rounded_square : LTISystem.t :=
  LTISystem.make 2 1 (Zero 2 2)
    [:: [:: 0x1.00000004p+0%float]; [:: 1%float]] None None.

(** [A = [[0.9, 0.1], [0.3, 0.7]]], the entries as the nearest binary64
    numbers, and [B = (1, 3)^T]. *)
Definition example_asymmetric : LTISystem.t :=
  LTISystem.make 2 1
    [:: [:: 0x1.ccccccccccccdp-1%float; 0x1.999999999999ap-4%float];
        [:: 0x1.3333333333333p-2%float; 0x1.6666666666666p-1%float]]
    [:: [:: 1%float]; [:: 3%float]] None None.

(** [A = 0], [B = diag(1, 2^-60)]. *)
Definition example_tiny_pivot : LTISystem.t :=
  LTISystem.make 2 2 (Zero 2 2)
    [:: [:: 1%float; 0%float]; [:: 0%float; 0x1p-60%float]] None None.

(** [A = B = I] of dimension 2. *)
Definition example_identity : LTISystem.t :=
  LTISystem.make 2 2 (Identity 2) (Identity 2) None None.

(** [A = 2000], [B = 0] of dimension 1. *)
Definition example_zero_input : LTISystem.t :=
  LTISystem.make 1 1 [:: [:: 2000%float]] (Zero 1 1) None None.

End Binary64.

(** ** Loops, vectors and blocks *)

Section Loops.

Variables (S : Type) (body : nat -> S -> result S).

Lemma foldl_Raise (T : Type) (f : nat -> T -> result T) e l :
  foldl (fun acc i => acc >>= f i) (Raise e) l = Raise e.
Proof. by elim: l. Qed.

Lemma foldl_iota_rule (Inv : nat -> S -> Prop) k lo s :
  Inv lo s ->
  (forall i s, (lo <= i < lo + k)%N -> Inv i s ->
     exists2 s', body i s = Ok s' & Inv i.+1 s') ->
  exists2 s', foldl (fun acc i => acc >>= body i) (Ok s) (iota lo k) = Ok s'
            & Inv (lo + k)%N s'.
Proof.
elim: k lo s => [|k IH] lo s H0 Hstep; first by exists s; rewrite ?addn0.
have [|s1 E1 H1] := Hstep lo s _ H0; first by rewrite leqnn addnS ltnS leq_addr.
rewrite /= E1 addnS -addSn; apply: IH => // i s2 /andP[loi ihi].
by apply: Hstep; rewrite (ltnW loi) addnS -addSn.
Qed.

(** The invariant rule for [for_loop]: the loop runs to its end and
    carries the invariant from [lo] to [hi]. *)
Lemma returns_for_loop (Inv : nat -> S -> Prop) lo hi s :
  (lo <= hi)%N -> Inv lo s ->
  (forall i s, (lo <= i < hi)%N -> Inv i s -> returns (body i s) (Inv i.+1)) ->
  returns (for_loop lo hi body s) (Inv hi).
Proof.
move=> lohi H0 Hstep; rewrite /for_loop.
have := @foldl_iota_rule Inv (hi - lo) lo s H0.
by rewrite subnKC //; apply.
Qed.

End Loops.

Section Returns.

Variables S T : Type.

Lemma bind_Ok (v : S) (k : S -> result T) : Ok v >>= k = k v.
Proof. by []. Qed.

Lemma returns_Ok (v : T) (Q : T -> Prop) : Q v -> returns (Ok v) Q.
Proof. by exists v. Qed.

Lemma returns_bind (r : result S) (k : S -> result T) (P : S -> Prop)
    (Q : T -> Prop) :
  returns r P -> (forall v, P v -> returns (k v) Q) -> returns (r >>= k) Q.
Proof. by case=> v -> Pv Hk; apply: Hk. Qed.

Lemma returns_weaken (r : result T) (P Q : T -> Prop) :
  returns r P -> (forall v, P v -> Q v) -> returns r Q.
Proof. by case=> v -> Pv PQ; exists v => //; apply: PQ. Qed.

End Returns.

Section VectorLemmas.

Variable T : Type.
Implicit Types (s : seq T) (i j : nat).

Lemma at_nth x0 s i : (i < size s)%N -> at_ s i = Ok (nth x0 s i).
Proof. by move=> lt_i; rewrite /at_ onthE (nth_map x0). Qed.

Lemma returns_at x0 s i :
  (i < size s)%N -> returns (at_ s i) (fun v => v = nth x0 s i).
Proof. by move=> lt_i; rewrite (at_nth x0) //; apply: returns_Ok. Qed.

Lemma nth_assigned (U : Type) (x0 w : U) (s : seq U) i j :
  (i < size s)%N ->
  nth x0 (take i s ++ w :: drop i.+1 s) j = if j == i then w else nth x0 s j.
Proof.
move=> lt_i; rewrite nth_cat size_take lt_i.
case: (ltngtP j i) => [lt_j|gt_j|->]; first by rewrite nth_take.
  by rewrite -(subnSK gt_j) /= nth_drop subnKC.
by rewrite subnn.
Qed.

Lemma assign_ok s i w : (i < size s)%N -> exists s', assign s i w = Ok s'.
Proof. by rewrite /assign => ->; eexists. Qed.

Lemma at_assign s i w s' :
  assign s i w = Ok s' ->
  size s' = size s /\ forall j, at_ s' j = if j == i then Ok w else at_ s j.
Proof.
rewrite /assign; case: ifP => // lt_i [<-]; split.
  by rewrite size_cat /= size_take size_drop lt_i subnSK // subnKC // ltnW.
move=> j; rewrite /at_ !onthE map_cat /= map_take map_drop nth_assigned.
  by rewrite size_map.
by case: (j == i).
Qed.

Lemma size_resize k fill s : size (resize k fill s) = k.
Proof.
rewrite /resize size_cat size_take size_nseq.
case: (ltnP k (size s)) => [lt_k|le_k]; last by rewrite subnKC.
by move/ltnW: lt_k; rewrite -subn_eq0 => /eqP->; rewrite addn0.
Qed.

Lemma filled_empty N lo f s : size s = N -> filled N lo lo f s.
Proof. by move=> sz; split=> // j; case: ltngtP. Qed.

(** Assigning the next element extends the filled range. *)
Lemma filled_assign N lo i f s :
  filled N lo i f s -> (i < N)%N ->
  returns (assign s i (f i)) (filled N lo i.+1 f).
Proof.
case=> sz Hs lt_i; have [|s' E] := @assign_ok s i (f i); first by rewrite sz.
exists s' => //; have [sz' Hs'] := at_assign E; split; first by rewrite sz'.
move=> j; rewrite Hs'; case: (altP (j =P i)) => [-> //|ne_j].
by rewrite ltnS [(j <= i)%N]leq_eqVlt (negbTE ne_j); apply: Hs.
Qed.

(** Assigning one element leaves the others of the filled range. *)
Lemma filled_assign_at N lo hi f s k w :
  filled N lo hi f s -> (k < N)%N ->
  returns (assign s k w) (fun s' =>
    [/\ size s' = N, at_ s' k = Ok w
      & forall j, (lo <= j < hi)%N -> j != k -> at_ s' j = Ok (f j)]).
Proof.
case=> sz Hs lt_k; have [|s' E] := @assign_ok s k w; first by rewrite sz.
exists s' => //; have [sz' Hs'] := at_assign E; split; first by rewrite sz'.
  by rewrite Hs' eqxx.
by move=> j lo_j /negbTE ne_j; rewrite Hs' ne_j Hs.
Qed.

Lemma returns_assign s k w :
  (k < size s)%N ->
  returns (assign s k w) (fun s' =>
    size s' = size s
    /\ forall j, at_ s' j = if j == k then Ok w else at_ s j).
Proof.
by case/(@assign_ok _ _ w) => s' E; exists s' => //; apply: at_assign E.
Qed.

(** Assigning an element outside the filled range keeps the range. *)
Lemma filled_assign_out N lo hi f s k w :
  filled N lo hi f s -> (k < N)%N -> ~~ (lo <= k < hi)%N ->
  returns (assign s k w) (fun s' => filled N lo hi f s' /\ at_ s' k = Ok w).
Proof.
case=> sz Hs lt_k out_k.
apply: returns_weaken (returns_assign w _) _; first by rewrite sz.
move=> s' [sz' Hs']; split; last by rewrite Hs' eqxx.
split=> [|j in_j]; first by rewrite sz'.
rewrite Hs' Hs //; case: eqP => // Ejk.
by rewrite Ejk in in_j; rewrite in_j in out_k.
Qed.

End VectorLemmas.

Section BlockLemmas.

Variable R : pzRingType.

Lemma coefE p q (M : 'M[R]_(p, q)) i j (lt_i : (i < p)%N) (lt_j : (j < q)%N) :
  coef M i j = M (Ordinal lt_i) (Ordinal lt_j).
Proof. by rewrite /coef !insubT. Qed.

Lemma coef_ord p q (M : 'M[R]_(p, q)) (i : 'I_p) (j : 'I_q) :
  coef M i j = M i j.
Proof. by rewrite /coef !valK. Qed.

Lemma block_get_set_same rows cols p q (M M' : 'M[R]_(rows, cols)) r c
    (X : 'M[R]_(p, q)) :
  block_set M r c X = Ok M' -> block_get p q M' r c = Ok X.
Proof.
rewrite /block_set /block_get; case: ifP => // /andP[rp cq] [<-].
congr Ok; apply/matrixP=> a b; rewrite mxE.
have lt_a : (r + a < rows)%N by rewrite (leq_trans _ rp) ?ltn_add2l.
have lt_b : (c + b < cols)%N by rewrite (leq_trans _ cq) ?ltn_add2l.
by rewrite (coefE _ lt_a lt_b) mxE /= !leq_addr !ltn_add2l !ltn_ord /= !addKn
           coef_ord.
Qed.

Lemma block_get_set_disjoint rows cols p q p' q' (M M' : 'M[R]_(rows, cols))
    r c r' c' (X : 'M[R]_(p, q)) :
  block_set M r c X = Ok M' ->
  [|| r' + p' <= r, r + p <= r', c' + q' <= c | c + q <= c']%N ->
  block_get p' q' M' r' c' = block_get p' q' M r' c'.
Proof.
rewrite /block_set /block_get; case: ifP => // _ [<-] disj.
case: ifP => // /andP[rp cq]; congr Ok; apply/matrixP=> a b.
rewrite !mxE.
have lt_a : (r' + a < rows)%N by rewrite (leq_trans _ rp) ?ltn_add2l.
have lt_b : (c' + b < cols)%N by rewrite (leq_trans _ cq) ?ltn_add2l.
rewrite !(coefE _ lt_a lt_b) mxE /=; case: ifP => // /and4P[ra ar cb bc].
have la : (r' + a < r' + p')%N by rewrite ltn_add2l.
have lb : (c' + b < c' + q')%N by rewrite ltn_add2l.
case/or4P: disj => H.
- by have := leq_trans la H; rewrite ltnNge ra.
- by have := leq_trans ar H; rewrite ltnNge leq_addr.
- by have := leq_trans lb H; rewrite ltnNge cb.
- by have := leq_trans bc H; rewrite ltnNge leq_addr.
Qed.

End BlockLemmas.

(** * Properties

    ** Gramians: the loops against the iteration of the specification *)

Section GramianTheory.

Variable R : realFieldType.
Variables n m : nat.

Lemma symmetric0 : symmetric (0 : 'M[R]_n).
Proof. by rewrite /symmetric trmx0. Qed.

Lemma symmetricD (G H : 'M[R]_n) :
  symmetric G -> symmetric H -> symmetric (G + H).
Proof. by rewrite /symmetric linearD /= => -> ->. Qed.

Lemma symmetric_mulmx_tr q (M : 'M[R]_(n, q)) : symmetric (M *m M^T).
Proof. by rewrite /symmetric trmx_mul trmxK. Qed.

Lemma psd0 : psd (0 : 'M[R]_n).
Proof. by move=> v; rewrite mulmx0 mul0mx mxE. Qed.

Lemma psdD (G H : 'M[R]_n) : psd G -> psd H -> psd (G + H).
Proof.
move=> pG pH v; rewrite mulmxDr mulmxDl mxE.
exact: addr_ge0 (pG v) (pH v).
Qed.

Lemma psd_mulmx_tr q (M : 'M[R]_(n, q)) : psd (M *m M^T).
Proof.
move=> v; rewrite mulmxA -mulmxA -trmx_mul; set w := v *m M.
by rewrite mxE; apply: sumr_ge0 => j _; rewrite [_^T _ _]mxE -expr2 sqr_ge0.
Qed.

Lemma lpNorm1_sub p q (M N : 'M[R]_(p, q)) : lpNorm1 (M - N) = lpNorm1 (N - M).
Proof.
rewrite /lpNorm1; apply: eq_bigr => i _; apply: eq_bigr => j _.
by rewrite !mxE distrC.
Qed.


Variable sys : LTISystem.t R n m.
Variable tol : R.

Lemma ctrb_iterateS k :
  LTISystem.ctrb_iterate sys k.+1 =
  (LTISystem.ctrb_update sys (LTISystem.ctrb_iterate sys k).1
     (LTISystem.ctrb_iterate sys k).2,
   (LTISystem.ctrb_iterate sys k).2 *m LTISystem.A_ sys).
Proof. by rewrite /=; case: (LTISystem.ctrb_iterate sys k). Qed.

Lemma obsv_iterateS k :
  LTISystem.obsv_iterate sys k.+1 =
  (LTISystem.obsv_update sys (LTISystem.obsv_iterate sys k).1
     (LTISystem.obsv_iterate sys k).2,
   (LTISystem.obsv_iterate sys k).2 *m LTISystem.A_ sys).
Proof. by rewrite /=; case: (LTISystem.obsv_iterate sys k). Qed.

Lemma ctrb_whileS r (CGp CG Ap : 'M[R]_n) :
  LTISystem.ctrb_while sys tol r.+1 CGp CG Ap =
  if lpNorm1 (CGp - LTISystem.ctrb_update sys CGp Ap) < tol
  then LTISystem.ctrb_update sys CGp Ap
  else LTISystem.ctrb_while sys tol r (LTISystem.ctrb_update sys CGp Ap)
         (LTISystem.ctrb_update sys CGp Ap) (Ap *m LTISystem.A_ sys).
Proof. by []. Qed.

Lemma ctrb_while_run r k :
  exists K, [/\ (k <= K <= k + r)%N,
    LTISystem.ctrb_while sys tol r (LTISystem.ctrb_iterate sys k).1
      (LTISystem.ctrb_iterate sys k).1 (LTISystem.ctrb_iterate sys k).2
    = (LTISystem.ctrb_iterate sys K).1,
    forall j, (k < j < K)%N -> ~~ LTISystem.ctrb_converged sys tol j
  & K = (k + r)%N \/ ((k < K)%N /\ LTISystem.ctrb_converged sys tol K)].
Proof.
elim: r k => [|r IH] k.
  exists k; split=> //; first by rewrite addn0 leqnn.
    by move=> j; case: ltngtP.
  by left; rewrite addn0.
have Ec : lpNorm1 ((LTISystem.ctrb_iterate sys k).1 -
            LTISystem.ctrb_update sys (LTISystem.ctrb_iterate sys k).1
              (LTISystem.ctrb_iterate sys k).2) < tol
          = LTISystem.ctrb_converged sys tol k.+1.
  by rewrite /LTISystem.ctrb_converged ctrb_iterateS lpNorm1_sub.
rewrite ctrb_whileS Ec; case: ifPn => Hc.
  exists k.+1; split; rewrite ?ctrb_iterateS //.
  - by rewrite leqnSn addnS ltnS leq_addr.
  - by move=> j; rewrite ltnS; case: ltngtP.
  - by right.
have [K [/andP[kK Kr] E Hn Hf]] := IH k.+1; exists K; split.
- by rewrite (ltnW kK) -addSnnS.
- by rewrite -E ctrb_iterateS.
- move=> j /andP[]; rewrite leq_eqVlt => /orP[/eqP <- _ //|kj jK].
  by apply: Hn; rewrite kj.
- case: Hf => [->|[kK' HK]]; first by left; rewrite addSnnS.
  by right; split=> //; apply: ltnW.
Qed.

Lemma obsv_whileS r (CGp CG Ap : 'M[R]_n) :
  LTISystem.obsv_while sys tol r.+1 CGp CG Ap =
  if lpNorm1 (CGp - LTISystem.obsv_update sys CGp Ap) < tol
  then LTISystem.obsv_update sys CGp Ap
  else LTISystem.obsv_while sys tol r (LTISystem.obsv_update sys CGp Ap)
         (LTISystem.obsv_update sys CGp Ap) (Ap *m LTISystem.A_ sys).
Proof. by []. Qed.

Lemma obsv_while_run r k :
  exists K, [/\ (k <= K <= k + r)%N,
    LTISystem.obsv_while sys tol r (LTISystem.obsv_iterate sys k).1
      (LTISystem.obsv_iterate sys k).1 (LTISystem.obsv_iterate sys k).2
    = (LTISystem.obsv_iterate sys K).1,
    forall j, (k < j < K)%N -> ~~ LTISystem.obsv_converged sys tol j
  & K = (k + r)%N \/ ((k < K)%N /\ LTISystem.obsv_converged sys tol K)].
Proof.
elim: r k => [|r IH] k.
  exists k; split=> //; first by rewrite addn0 leqnn.
    by move=> j; case: ltngtP.
  by left; rewrite addn0.
have Ec : lpNorm1 ((LTISystem.obsv_iterate sys k).1 -
            LTISystem.obsv_update sys (LTISystem.obsv_iterate sys k).1
              (LTISystem.obsv_iterate sys k).2) < tol
          = LTISystem.obsv_converged sys tol k.+1.
  by rewrite /LTISystem.obsv_converged obsv_iterateS lpNorm1_sub.
rewrite obsv_whileS Ec; case: ifPn => Hc.
  exists k.+1; split; rewrite ?obsv_iterateS //.
  - by rewrite leqnSn addnS ltnS leq_addr.
  - by move=> j; rewrite ltnS; case: ltngtP.
  - by right.
have [K [/andP[kK Kr] E Hn Hf]] := IH k.+1; exists K; split.
- by rewrite (ltnW kK) -addSnnS.
- by rewrite -E obsv_iterateS.
- move=> j /andP[]; rewrite leq_eqVlt => /orP[/eqP <- _ //|kj jK].
  by apply: Hn; rewrite kj.
- case: Hf => [->|[kK' HK]]; first by left; rewrite addSnnS.
  by right; split=> //; apply: ltnW.
Qed.


Lemma ctrb_iterate_sum K :
  LTISystem.ctrb_iterate sys K =
  (LTISystem.ctrb_partial_sum sys K, mxpow (LTISystem.A_ sys) K).
Proof.
elim: K => [|K IH]; first by rewrite /LTISystem.ctrb_partial_sum big_ord0.
by rewrite ctrb_iterateS IH /LTISystem.ctrb_partial_sum big_ord_recr.
Qed.

Lemma obsv_iterate_sum K :
  LTISystem.obsv_iterate sys K =
  (LTISystem.obsv_partial_sum sys K, mxpow (LTISystem.A_ sys) K).
Proof.
elim: K => [|K IH]; first by rewrite /LTISystem.obsv_partial_sum big_ord0.
by rewrite obsv_iterateS IH /LTISystem.obsv_partial_sum big_ord_recr.
Qed.

Lemma ctrb_stop max_iters :
  exists2 K, LTISystem.stops_at (LTISystem.ctrb_converged sys tol) max_iters K
  & LTISystem.ctrb_while sys tol max_iters 0 0 1%:M
    = (LTISystem.ctrb_iterate sys K).1.
Proof.
have [K [/andP[_ Km] E Hn Hf]] := ctrb_while_run max_iters 0.
by exists K.
Qed.

Lemma obsv_stop max_iters :
  exists2 K, LTISystem.stops_at (LTISystem.obsv_converged sys tol) max_iters K
  & LTISystem.obsv_while sys tol max_iters 0 0 1%:M
    = (LTISystem.obsv_iterate sys K).1.
Proof.
have [K [/andP[_ Km] E Hn Hf]] := obsv_while_run max_iters 0.
by exists K.
Qed.

Lemma ctrb_increment (G P : 'M[R]_n) :
  LTISystem.ctrb_update sys G P - G
  = (P *m LTISystem.B_ sys) *m (P *m LTISystem.B_ sys)^T.
Proof.
by rewrite /LTISystem.ctrb_update addrC addKr trmx_mul !mulmxA.
Qed.

Lemma obsv_increment (G P : 'M[R]_n) :
  LTISystem.obsv_update sys G P - G
  = (LTISystem.C_ sys *m P)^T *m ((LTISystem.C_ sys *m P)^T)^T.
Proof.
by rewrite /LTISystem.obsv_update addrC addKr trmxK trmx_mul !mulmxA.
Qed.

Lemma ctrb_update_sym_psd (G P : 'M[R]_n) :
  symmetric G -> psd G ->
  [/\ symmetric (LTISystem.ctrb_update sys G P),
      psd (LTISystem.ctrb_update sys G P)
    & psd (LTISystem.ctrb_update sys G P - G)].
Proof.
move=> sG pG.
have inc : psd (LTISystem.ctrb_update sys G P - G).
  by rewrite ctrb_increment; apply: psd_mulmx_tr.
split=> //; rewrite -[LTISystem.ctrb_update _ _ _](subrK G) ctrb_increment addrC.
  by apply: symmetricD => //; apply: symmetric_mulmx_tr.
by apply: psdD => //; apply: psd_mulmx_tr.
Qed.

Lemma ctrb_iterate_sym_psd k :
  [/\ symmetric (LTISystem.ctrb_iterate sys k).1,
      psd (LTISystem.ctrb_iterate sys k).1
    & psd ((LTISystem.ctrb_iterate sys k.+1).1
           - (LTISystem.ctrb_iterate sys k).1)].
Proof.
have [sG pG] : symmetric (LTISystem.ctrb_iterate sys k).1
               /\ psd (LTISystem.ctrb_iterate sys k).1.
  elim: k => [|k [sG pG]]; first by split; [apply: symmetric0 | apply: psd0].
  by rewrite ctrb_iterateS; have [] := ctrb_update_sym_psd
       (LTISystem.ctrb_iterate sys k).2 sG pG.
by split=> //; rewrite ctrb_iterateS; have [] := ctrb_update_sym_psd
     (LTISystem.ctrb_iterate sys k).2 sG pG.
Qed.

Lemma obsv_update_sym_psd (G P : 'M[R]_n) :
  symmetric G -> psd G ->
  [/\ symmetric (LTISystem.obsv_update sys G P),
      psd (LTISystem.obsv_update sys G P)
    & psd (LTISystem.obsv_update sys G P - G)].
Proof.
move=> sG pG.
have inc : psd (LTISystem.obsv_update sys G P - G).
  by rewrite obsv_increment; apply: psd_mulmx_tr.
split=> //; rewrite -[LTISystem.obsv_update _ _ _](subrK G) obsv_increment addrC.
  by apply: symmetricD => //; apply: symmetric_mulmx_tr.
by apply: psdD => //; apply: psd_mulmx_tr.
Qed.

Lemma obsv_iterate_sym_psd k :
  [/\ symmetric (LTISystem.obsv_iterate sys k).1,
      psd (LTISystem.obsv_iterate sys k).1
    & psd ((LTISystem.obsv_iterate sys k.+1).1
           - (LTISystem.obsv_iterate sys k).1)].
Proof.
have [sG pG] : symmetric (LTISystem.obsv_iterate sys k).1
               /\ psd (LTISystem.obsv_iterate sys k).1.
  elim: k => [|k [sG pG]]; first by split; [apply: symmetric0 | apply: psd0].
  by rewrite obsv_iterateS; have [] := obsv_update_sym_psd
       (LTISystem.obsv_iterate sys k).2 sG pG.
by split=> //; rewrite obsv_iterateS; have [] := obsv_update_sym_psd
     (LTISystem.obsv_iterate sys k).2 sG pG.
Qed.


(** C10, as amended: in exact arithmetic, which [R] stands for, the
    update of the body of the discrete-time controllability and
    observability Gramian loops turns a symmetric positive semidefinite
    [CG_prev] into a symmetric positive semidefinite [CG] by adding a
    positive semidefinite increment; so every iterate [G_k] is symmetric
    and positive semidefinite, every increment [G_(k+1) - G_k] is
    positive semidefinite, and the Gramian returned for any [max_iters]
    and tolerance is symmetric and positive semidefinite. In [double]
    the products are rounded one by one and neither property survives:
    see the section on rounding at the end. *)
Theorem gramian_iterates_symmetric_psd :
  [/\ forall CG_prev A_prev, symmetric CG_prev -> psd CG_prev ->
        [/\ symmetric (LTISystem.ctrb_update sys CG_prev A_prev),
            psd (LTISystem.ctrb_update sys CG_prev A_prev)
          & psd (LTISystem.ctrb_update sys CG_prev A_prev - CG_prev)],
      forall k,
        [/\ symmetric (LTISystem.ctrb_iterate sys k).1,
            psd (LTISystem.ctrb_iterate sys k).1
          & psd ((LTISystem.ctrb_iterate sys k.+1).1
                 - (LTISystem.ctrb_iterate sys k).1)]
    & forall max_iters,
        exists G, [/\ LTISystem.computeControllabilityGramian DISCRETE_TIME
                        sys max_iters tol = Ok G,
                      symmetric G & psd G]]
  /\
  [/\ forall OG_prev A_prev, symmetric OG_prev -> psd OG_prev ->
        [/\ symmetric (LTISystem.obsv_update sys OG_prev A_prev),
            psd (LTISystem.obsv_update sys OG_prev A_prev)
          & psd (LTISystem.obsv_update sys OG_prev A_prev - OG_prev)],
      forall k,
        [/\ symmetric (LTISystem.obsv_iterate sys k).1,
            psd (LTISystem.obsv_iterate sys k).1
          & psd ((LTISystem.obsv_iterate sys k.+1).1
                 - (LTISystem.obsv_iterate sys k).1)]
    & forall max_iters,
        exists G, [/\ LTISystem.computeObservabilityGramian DISCRETE_TIME
                        sys max_iters tol = Ok G,
                      symmetric G & psd G]].
Proof.
split; split.
- exact: ctrb_update_sym_psd.
- exact: ctrb_iterate_sym_psd.
- move=> max_iters; have [K _ E] := ctrb_stop max_iters.
  exists (LTISystem.ctrb_iterate sys K).1.
  have [sG pG _] := ctrb_iterate_sym_psd K.
  by split=> //; rewrite /LTISystem.computeControllabilityGramian E.
- exact: obsv_update_sym_psd.
- exact: obsv_iterate_sym_psd.
- move=> max_iters; have [K _ E] := obsv_stop max_iters.
  exists (LTISystem.obsv_iterate sys K).1.
  have [sG pG _] := obsv_iterate_sym_psd K.
  by split=> //; rewrite /LTISystem.computeObservabilityGramian E.
Qed.

End GramianTheory.

(** ** The norm of the stopping test *)

Lemma example_identity_iterate k :
  LTISystem.ctrb_iterate example_identity_system k = (k%:R%:M, 1%:M).
Proof.
elim: k => [|k IH] /=; first by rewrite mulr0n raddf0.
by rewrite IH /= !mul1mx trmx1 mulmx1 -raddfD /= -natr1.
Qed.

Lemma example_identity_increment k :
  (LTISystem.ctrb_iterate example_identity_system k.+1).1
  - (LTISystem.ctrb_iterate example_identity_system k).1 = 1%:M.
Proof.
by rewrite !example_identity_iterate /= -natr1 raddfD /= addrC addKr.
Qed.

Lemma lpNorm1_identity2 : lpNorm1 (1%:M : 'M[rat]_2) = 2.
Proof.
rewrite /lpNorm1 !big_ord_recl !big_ord0 !mxE /=.
by rewrite !normr1 !normr0.
Qed.

Lemma matrix_norm1_identity2 : matrix_norm1 (1%:M : 'M[rat]_2) = 1.
Proof.
rewrite /matrix_norm1 !big_ord_recl !big_ord0 !mxE /=.
by rewrite !normr1 !normr0.
Qed.


(** ** Construction and the unsupported operations *)

Section LTIBasics.

Variable R : realFieldType.
Variables MANIFOLD Time_t : Type.
Variables n m : nat.

(** C8: the continuous-time Gramians, computeOutput and getFeedback throw
    [std::runtime_error] on every input; none of them returns a value. *)
Theorem unsupported_operations_throw :
  [/\ forall (sys : LTISystem.t R n m) max_iters tol,
        LTISystem.computeControllabilityGramian CONTINUOUS_TIME sys
          max_iters tol
        = Raise (runtime_error
            "Computation of controllability Gramian not implemented for continuous-time systems yet."),
      forall (sys : LTISystem.t R n m) max_iters tol,
        LTISystem.computeObservabilityGramian CONTINUOUS_TIME sys
          max_iters tol
        = Raise (runtime_error
            "Computation of observability Gramian not implemented for continuous-time systems yet."),
      forall (sys : LTISystem.t R n m) (state : MANIFOLD) (tn : Time_t)
             control output,
        LTISystem.computeOutput sys state tn control output
        = Raise (runtime_error
            "LTISystem: computeOutput() not ported to manifolds yet.")
    & forall st : HPIPMInterface.t R n m,
        HPIPMInterface.getFeedback st = Raise (runtime_error "not implemented")].
Proof. by split. Qed.

(** C9, as amended: a system built from [A] and [B] alone has [C] the
    identity and [D] zero, while the constructor without arguments sets
    all four matrices, [C] included, to zero. *)
Theorem make_defaults_C_identity_D_zero
    (A : 'M[R]_n) (B : 'M[R]_(n, m)) :
  [/\ LTISystem.C_ (LTISystem.make A B None None) = 1%:M,
      LTISystem.D_ (LTISystem.make A B None None) = 0,
      LTISystem.A_ (LTISystem.make A B None None) = A,
      LTISystem.B_ (LTISystem.make A B None None) = B
    & LTISystem.default R n m = LTISystem.Build 0 0 0 0].
Proof. by split. Qed.

End LTIBasics.

(** C9 as stated fails: the system of dimension 1 built without arguments
    has [C = 0], which is not the identity. *)
Lemma default_ctor_C_not_identity :
  ~ (LTISystem.C_ (LTISystem.default rat 1 1) = 1%:M
     /\ LTISystem.D_ (LTISystem.default rat 1 1) = 0).
Proof. by case=> /matrixP /(_ 0 0); rewrite !mxE. Qed.

(** ** Controllability and observability matrices *)

Section StructuralTests.

Variable R : realFieldType.
Variables n m : nat.

Lemma mxpow_comm (A : 'M[R]_n) k : A *m mxpow A k = mxpow A k *m A.
Proof.
elim: k => [|k IH]; first by rewrite /mxpow /= mulmx1 mul1mx.
by rewrite /mxpow iterS -/(mxpow A k) mulmxA IH.
Qed.

Lemma block_set_ok rows cols p q (M : 'M[R]_(rows, cols)) r c
    (X : 'M[R]_(p, q)) :
  block_in_range rows cols p q r c -> exists M', block_set M r c X = Ok M'.
Proof. by rewrite /block_set => ->; eexists. Qed.

Lemma computeControllabilityMatrix_blocks (sys : LTISystem.t R n m)
    (CO0 : 'M[R]_(n, n * m)) :
  (0 < n)%N ->
  exists2 CO, LTISystem.computeControllabilityMatrix sys CO0 = Ok CO
  & forall i, (i < n)%N ->
      block_get n m CO 0 (i * m)
      = Ok (mxpow (LTISystem.A_ sys) i *m LTISystem.B_ sys).
Proof.
move=> n_gt0; rewrite /LTISystem.computeControllabilityMatrix.
have [|CO1 E1] := @block_set_ok _ _ _ _ CO0 0 0 (LTISystem.B_ sys).
  by rewrite /block_in_range !add0n leqnn leq_pmull.
rewrite E1 /=.
apply: (@returns_for_loop _ _ (fun i CO => forall j, (j < i)%N ->
          block_get n m CO 0 (j * m)
          = Ok (mxpow (LTISystem.A_ sys) j *m LTISystem.B_ sys))) => //.
  by case=> // _; rewrite mul0n (block_get_set_same E1) /mxpow /= mul1mx.
move=> i CO /andP[i_gt0 lt_i] Inv.
rewrite Inv ?subn1 ?prednK //=.
have [|CO' E'] := @block_set_ok _ _ _ _ CO 0 (i * m)
    (LTISystem.A_ sys *m (mxpow (LTISystem.A_ sys) i.-1 *m LTISystem.B_ sys)).
  by rewrite /block_in_range add0n leqnn addnC -mulSn leq_mul2r lt_i orbT.
exists CO' => // j; rewrite ltnS leq_eqVlt => /orP[/eqP->|lt_j].
  rewrite (block_get_set_same E') mulmxA mxpow_comm.
  by rewrite -[in RHS](prednK i_gt0).
rewrite (block_get_set_disjoint E') ?Inv //.
by rewrite [(j * m + m)%N]addnC -mulSn leq_mul2r lt_j !orbT.
Qed.

Lemma row_free_identity_block (CO : 'M[R]_(n, n * n)) :
  (0 < n)%N -> block_get n n CO 0 0 = Ok 1%:M -> \rank CO = n.
Proof.
move=> n_gt0; rewrite /block_get; case: ifP => // _ [/matrixP E].
apply/eqP/row_freeP.
exists (\matrix_(k < n * n, j < n) (k == j :> nat)%:R).
apply/matrixP=> a b; rewrite -E !mxE.
have lt_b : (b < n * n)%N by rewrite (leq_trans (ltn_ord b)) ?leq_pmull.
rewrite (bigD1 (Ordinal lt_b)) //= big1 => [k|].
  by rewrite !mxE -val_eqE /= => /negbTE->; rewrite mulr0.
rewrite !mxE /= eqxx mulr1 addr0 !add0n (coefE _ (ltn_ord a) lt_b).
by congr (CO _ _); apply: val_inj.
Qed.

End StructuralTests.

Section Observability.

Variable R : realFieldType.
Variables n m : nat.

Lemma computeObservabilityMatrix_out_of_range (sys : LTISystem.t R n m)
    (O : 'M[R]_(n, n * n)) :
  (1 < n)%N -> LTISystem.computeObservabilityMatrix sys O = Raise eigen_assert.
Proof.
move=> n_gt1; have n_gt0 := ltnW n_gt1.
rewrite /LTISystem.computeObservabilityMatrix.
have [|O1 ->] := @block_set_ok _ _ _ _ _ O 0 0 (LTISystem.C_ sys).
  by rewrite /block_in_range !add0n leqnn leq_pmull.
rewrite /= /for_loop -(subnSK n_gt1) /=.
set first_pass := (X in foldl _ X _).
have -> : first_pass = Raise eigen_assert; last exact: foldl_Raise.
rewrite /first_pass /block_get /block_in_range subnn mul0n !add0n leqnn.
have nn : (n + n <= n)%N = false.
  by rewrite -[X in (_ <= X)%N]addn0 leq_add2l leqn0; apply: gtn_eqF.
by rewrite leq_pmull //= /block_set /block_in_range mul1n nn.
Qed.

End Observability.

Section RankTests.

Variable R : realFieldType.
Variables n m : nat.

Lemma iter_mulmx_mxpow (A : 'M[R]_n) (B : 'M[R]_(n, m)) i :
  iter i (mulmx A) B = mxpow A i *m B.
Proof.
elim: i => [|i IH]; first by rewrite /mxpow /= mul1mx.
by rewrite iterS IH mulmxA mxpow_comm.
Qed.


End RankTests.


(** C2 on the code: with state dimension 2 the assignment to
    [O.block<2, 2>(2, 0)] leaves the 2 x 4 matrix [O], so neither the
    observability matrix nor the answer of isObservable is produced. *)
Theorem observability_matrix_dim2_out_of_range :
  let sys := LTISystem.make (1%:M : 'M[rat]_2) (0 : 'M[rat]_(2, 1)) None None in
  LTISystem.computeObservabilityMatrix sys 0 = Raise eigen_assert
  /\ LTISystem.isObservable sys 0 = Raise eigen_assert.
Proof.
move=> sys; rewrite /LTISystem.isObservable.
by rewrite computeObservabilityMatrix_out_of_range.
Qed.

(** ** The HPIPM interface: configuration and transcription *)

Section Interface.

Variable R : realFieldType.
Variables n m : nat.

Local Notation Problem := (LQOCProblem.t R n m).
Local Notation Interface := (HPIPMInterface.t R n m).

Import HPIPMInterface.

Lemma changeNumberOfStages_configured fresh N (st0 : Interface) :
  returns (changeNumberOfStages fresh (Posz N) st0) (fun st =>
    configured N st /\ lqocProblem_ st = lqocProblem_ st0).
Proof.
rewrite /changeNumberOfStages.
apply: (@returns_bind _ _ _ _ (fun s =>
          filled N.+1 1 N.+1 data_hx s.1 /\ filled N.+1 0 N data_hu s.2)).
  apply: (@returns_for_loop _ _ (fun i s =>
            filled N.+1 1 i.+1 data_hx s.1 /\ filled N.+1 0 i data_hu s.2)) => //.
    by split; apply: filled_empty; rewrite size_resize.
  move=> i [x u] /andP[_ lt_i] /= [Hx Hu].
  apply: returns_bind (filled_assign Hx _) _ => // x' Hx'.
  apply: returns_bind (filled_assign Hu _) _ => [|u' Hu']; first exact: ltnW.
  exact: returns_Ok.
case=> x u /= [Hx Hu].
apply: (@returns_bind _ _ _ _ (filled N 0 N data_hpi)).
  apply: (@returns_for_loop _ _ (fun i => filled N 0 i data_hpi)) => //.
    by apply: filled_empty; rewrite size_resize.
  by move=> i s /andP[_ lt_i] Hs; apply: filled_assign.
move=> pi Hpi.
have Fnx : filled N.+1 0 0 (fun=> 0 : int) (resize N.+1 (Posz n) (nx_ st0)).
  by apply: filled_empty; rewrite size_resize.
apply: returns_bind (filled_assign_at 0 Fnx _) _ => // nx [sz_nx nx0 _].
have Fnu : filled N.+1 0 0 (fun=> 0 : int) (resize N.+1 (Posz m) (nu_ st0)).
  by apply: filled_empty; rewrite size_resize.
apply: returns_bind (filled_assign_at 0 Fnu _) _ => // nu [sz_nu nuN _].
by apply: returns_Ok; split=> //; split; rewrite /= ?size_resize.
Qed.

Lemma well_formed_sizes N (pb : Problem) :
  well_formed N pb ->
  [/\ (0 < N)%N, LQOCProblem.K_ pb = Posz N,
      size (LQOCProblem.x_ pb) = N.+1 & size (LQOCProblem.u_ pb) = N]
  /\ [/\ size (LQOCProblem.A_ pb) = N, size (LQOCProblem.B_ pb) = N,
         size (LQOCProblem.b_ pb) = N & size (LQOCProblem.P_ pb) = N]
  /\ [/\ size (LQOCProblem.qv_ pb) = N.+1, size (LQOCProblem.Q_ pb) = N.+1,
         size (LQOCProblem.rv_ pb) = N & size (LQOCProblem.R_ pb) = N].
Proof.
rewrite /well_formed.
case/and5P=> N_gt0 /eqP EK /eqP sx /eqP su.
case/and5P=> /eqP sA /eqP sB /eqP sb /eqP sP.
by case/and4P=> /eqP sqv /eqP sQ /eqP srv /eqP sR.
Qed.

Lemma setupHPIPM_transcribed N (pb : Problem) (st0 : Interface) :
  well_formed N pb -> configured N st0 ->
  returns
    (setupHPIPM (LQOCProblem.x_ pb) (LQOCProblem.u_ pb) (LQOCProblem.A_ pb)
       (LQOCProblem.B_ pb) (LQOCProblem.b_ pb) (LQOCProblem.P_ pb)
       (LQOCProblem.qv_ pb) (LQOCProblem.Q_ pb) (LQOCProblem.rv_ pb)
       (LQOCProblem.R_ pb) st0)
    (fun st => [/\ transcribed N pb st, configured N st
                 & lqocProblem_ st = lqocProblem_ st0]).
Proof.
case/well_formed_sizes=> [[N_gt0 EK sx su] [[sA sB sb sP] [sqv sQ srv sR]]] cfg.
rewrite /setupHPIPM (cfg_N cfg).
apply: returns_bind (returns_at 0 _) _ => [|_ _]; first by rewrite sx.
apply: (@returns_bind _ _ _ _ (fun s =>
   [/\ filled N 0 N data_A s.1.1.1, filled N 0 N data_B s.1.1.2,
       filled N 0 N (b_generic pb) s.1.2 & filled N 0 N data_bEigen s.2])).
  apply: (@returns_for_loop _ _ (fun i s =>
     [/\ filled N 0 i data_A s.1.1.1, filled N 0 i data_B s.1.1.2,
         filled N 0 i (b_generic pb) s.1.2 & filled N 0 i data_bEigen s.2])) => //.
    by split; apply: filled_empty; case: cfg.
  move=> i [[[hA hB] bEigen] hb] /andP[_ lt_i] /= [HA HB Hb Hp].
  apply: returns_bind (returns_at 0 _) _ => [|_ _]; first by rewrite sA.
  apply: returns_bind (filled_assign HA _) _ => // hA' HA'.
  apply: returns_bind (returns_at 0 _) _ => [|_ _]; first by rewrite sB.
  apply: returns_bind (filled_assign HB _) _ => // hB' HB'.
  apply: returns_bind (returns_at 0 _) _ => [|bi ->]; first by rewrite sb.
  apply: returns_bind (returns_at 0 _) _ => [|xi1 ->]; first by rewrite sx.
  apply: returns_bind (returns_at 0 _) _ => [|Ai ->]; first by rewrite sA.
  apply: returns_bind (returns_at 0 _) _ => [|xi ->]; first by rewrite sx ltnW.
  apply: returns_bind (returns_at 0 _) _ => [|Bi ->]; first by rewrite sB.
  apply: returns_bind (returns_at 0 _) _ => [|ui ->]; first by rewrite su.
  apply: returns_bind (filled_assign Hb _) _ => // bE' Hb'.
  apply: returns_bind (filled_assign Hp _) _ => // hb' Hp'.
  exact: returns_Ok.
case=> [[[hA hB] bEigen] hb] /= [HA HB Hb Hp].
apply: returns_bind (returns_at 0 _) _ => [|b0 ->]; first by rewrite sb.
apply: returns_bind (returns_at 0 _) _ => [|x1 ->]; first by rewrite sx.
apply: returns_bind (returns_at 0 _) _ => [|B0 ->]; first by rewrite sB.
apply: returns_bind (returns_at 0 _) _ => [|u0 ->]; first by rewrite su.
apply: returns_bind (returns_assign data_hb0 _) _ => [|hb' [sz_hb' Hp']].
  by rewrite (proj1 Hp).
apply: (@returns_bind _ _ _ _ (fun s =>
   [/\ filled N.+1 0 N data_Q s.1.1.1.1.1.1, filled N.+1 0 N data_P s.1.1.1.1.1.2
     & filled N.+1 0 N data_R s.1.1.1.1.2]
   /\ [/\ filled N.+1 0 N (q_generic pb) s.1.1.1.2,
          filled N.+1 0 N data_hqEigen s.1.1.2,
          filled N.+1 0 N (r_generic pb) s.1.2
        & filled N.+1 0 N data_hrEigen s.2])).
  apply: (@returns_for_loop _ _ (fun i s =>
     [/\ filled N.+1 0 i data_Q s.1.1.1.1.1.1,
         filled N.+1 0 i data_P s.1.1.1.1.1.2
       & filled N.+1 0 i data_R s.1.1.1.1.2]
     /\ [/\ filled N.+1 0 i (q_generic pb) s.1.1.1.2,
            filled N.+1 0 i data_hqEigen s.1.1.2,
            filled N.+1 0 i (r_generic pb) s.1.2
          & filled N.+1 0 i data_hrEigen s.2])) => //.
    by split; split; apply: filled_empty; case: cfg.
  move=> i [[[[[[hQ hS] hR] hqE] hq] hrE] hr] /andP[_ lt_i] /=.
  case=> [[HQ HS HR] [HqE Hq HrE Hr]]; have lt_i' := ltnW lt_i : (i < N.+1)%N.
  apply: returns_bind (returns_at 0 _) _ => [|Qi ->]; first by rewrite sQ.
  apply: returns_bind (filled_assign HQ _) _ => // hQ' HQ'.
  apply: returns_bind (returns_at 0 _) _ => [|Pi ->]; first by rewrite sP.
  apply: returns_bind (filled_assign HS _) _ => // hS' HS'.
  apply: returns_bind (returns_at 0 _) _ => [|Ri ->]; first by rewrite sR.
  apply: returns_bind (filled_assign HR _) _ => // hR' HR'.
  apply: returns_bind (returns_at 0 _) _ => [|qi ->]; first by rewrite sqv.
  apply: returns_bind (returns_at 0 _) _ => [|xi ->]; first by rewrite sx.
  apply: returns_bind (returns_at 0 _) _ => [|ui ->]; first by rewrite su.
  apply: returns_bind (filled_assign HqE _) _ => // hqE' HqE'.
  apply: returns_bind (filled_assign Hq _) _ => // hq' Hq'.
  apply: returns_bind (returns_at 0 _) _ => [|ri ->]; first by rewrite srv.
  apply: returns_bind (filled_assign HrE _) _ => // hrE' HrE'.
  apply: returns_bind (filled_assign Hr _) _ => // hr' Hr'.
  exact: returns_Ok.
case=> [[[[[[hQ hS] hR] hqE] hq] hrE] hr] /= [[HQ HS HR] [HqE Hq HrE Hr]].
have outN lo : ~~ (lo <= N < N)%N by rewrite ltnn andbF.
apply: returns_bind (returns_at 0 _) _ => [|QN ->]; first by rewrite sQ.
apply: returns_bind (filled_assign HQ _) _ => // hQ' HQ'.
apply: returns_bind (filled_assign_out nullptr HS _ (outN _)) _ => // hS' HS'.
apply: returns_bind (filled_assign_out nullptr HR _ (outN _)) _ => // hR' HR'.
apply: returns_bind (returns_at 0 _) _ => [|qN ->]; first by rewrite sqv.
apply: returns_bind (returns_at 0 _) _ => [|xN ->]; first by rewrite sx.
apply: returns_bind (filled_assign_out _ HqE _ (outN _)) _ => // hqE' HqE'.
apply: returns_bind (filled_assign Hq _) _ => // hq' Hq'.
apply: returns_bind (filled_assign_out nullptr Hr _ (outN _)) _ => // hr' [Hr' HrN].
rewrite (proj2 HrE 0) //=.
apply: returns_bind (returns_at 0 _) _ => [|P0 ->]; first by rewrite sP.
apply: returns_bind (returns_at 0 _) _ => [|x0 ->]; first by rewrite sx.
apply: returns_bind (returns_assign data_hr0 _) _ => [|hr'' [sz_hr'' Hr'']].
  by rewrite (proj1 Hr').
apply: returns_Ok; split=> //=.
- split=> //=.
  + split; last by rewrite Hp'.
    split=> [|j /andP[j_gt0 lt_j]]; first by rewrite sz_hb' (proj1 Hp).
    by rewrite Hp' (gtn_eqF j_gt0) (proj2 Hp).
  + split; [|by rewrite Hr''|by rewrite Hr'' (gtn_eqF N_gt0)].
    split=> [|j /andP[j_gt0 lt_j]]; first by rewrite sz_hr'' (proj1 Hr').
    by rewrite Hr'' (gtn_eqF j_gt0) (proj2 Hr') // ltnW.
- by case: cfg => *; split=> //=; rewrite ?(proj1 HA) ?(proj1 HB) ?(proj1 Hb)
       ?sz_hb' ?(proj1 Hp) ?(proj1 HQ') ?(proj1 (proj1 HS')) ?(proj1 (proj1 HR'))
       ?(proj1 (proj1 HqE')) ?(proj1 Hq') ?(proj1 HrE) ?sz_hr'' ?(proj1 Hr').
Qed.

Lemma setProblemImpl_transcribed fresh N (pb : Problem) (st0 : Interface) :
  well_formed N pb ->
  returns (setProblemImpl fresh pb st0)
    (fun st => [/\ transcribed N pb st, configured N st
                 & lqocProblem_ st = lqocProblem_ st0]).
Proof.
move=> wf; have [[_ EK _ _] _] := well_formed_sizes wf.
rewrite /setProblemImpl /LQOCProblem.getNumberOfStages EK.
apply: returns_bind (changeNumberOfStages_configured fresh N st0) _.
move=> st1 [cfg1 E1].
apply: returns_weaken (setupHPIPM_transcribed wf cfg1) _.
by move=> st [tr cfg E]; split=> //; rewrite E.
Qed.

Lemma b_abs_transcribed N (pb : Problem) (st : Interface) :
  transcribed N pb st ->
  b_abs st 0 = Ok (b_first pb)
  /\ forall i, (0 < i < N)%N -> b_abs st i = Ok (b_generic pb i).
Proof.
move=> tr; rewrite /b_abs (proj2 (tr_hb tr)) /= (tr_hb0 tr); split=> // i in_i.
rewrite (proj2 (proj1 (tr_hb tr))) //= (proj2 (tr_bEigen tr)) //.
by case/andP: in_i.
Qed.

Lemma q_abs_transcribed N (pb : Problem) (st : Interface) :
  transcribed N pb st ->
  q_abs st N = Ok (q_terminal pb N)
  /\ forall i, (i < N)%N -> q_abs st i = Ok (q_generic pb i).
Proof.
move=> tr; have [[_ HqE] HqN] := tr_hqEigen tr; have [_ Hq] := tr_hq tr.
rewrite /q_abs; split=> [|i lt_i]; first by rewrite Hq ?leq0n /=.
by rewrite Hq ?leq0n ?(leqW lt_i) //= HqE.
Qed.

Lemma r_abs_transcribed N (pb : Problem) (st : Interface) :
  transcribed N pb st ->
  r_abs st 0 = Ok (r_generic pb 0 + nth 0 (LQOCProblem.P_ pb) 0
                                     *m nth 0 (LQOCProblem.x_ pb) 0)
  /\ forall i, (0 < i < N)%N -> r_abs st i = Ok (r_generic pb i).
Proof.
move=> tr; have [Hr Hr0 HrN] := tr_hr tr.
rewrite /r_abs Hr0 /= (tr_hr0 tr); split=> // i in_i.
rewrite (proj2 Hr) //= (proj2 (tr_hrEigen tr)) //.
by case/andP: in_i.
Qed.

Lemma b_first_generic (pb : Problem) :
  b_first pb = b_generic pb 0 + nth 0 (LQOCProblem.A_ pb) 0
                                 *m nth 0 (LQOCProblem.x_ pb) 0.
Proof. by rewrite /b_first /b_generic [RHS]addrAC subrK. Qed.

(** C3: the offset handed to the solver for an interior stage
    [i = 1..N-1] is [b_i + x_(i+1) - A_i x_i - B_i u_i], and for the first
    stage it is [b_0 + x_1 - B_0 u_0], the generic offset without its
    [- A_0 x_0] term. *)
Theorem dynamics_offset_transcription fresh N (pb : Problem) (st0 : Interface) :
  well_formed N pb ->
  returns (setProblemImpl fresh pb st0) (fun st =>
    [/\ forall i, (0 < i < N)%N -> b_abs st i = Ok (b_generic pb i),
        b_abs st 0 = Ok (b_first pb)
      & b_first pb = b_generic pb 0 + nth 0 (LQOCProblem.A_ pb) 0
                                       *m nth 0 (LQOCProblem.x_ pb) 0]).
Proof.
move=> wf; apply: returns_weaken (setProblemImpl_transcribed fresh st0 wf) _.
move=> st [tr _ _]; have [b0 bi] := b_abs_transcribed tr.
by split=> //; apply: b_first_generic.
Qed.

(** C4: for the stages [i < N] the transcription computes
    [q_i - Q_i x_i - S_i^T u_i], which the solver gets as [q_abs_i], and
    [r_i - R_i u_i - S_i x_i] into [hrEigen_]; the solver gets the latter
    as [r_abs_i] for [i = 1..N-1] and with [S_0 x_0] added for the first
    stage; the terminal stage has [q_abs_N = q_N - Q_N x_N] and null
    pointers for S, R and r. *)
Theorem gradient_offset_transcription fresh N (pb : Problem) (st0 : Interface) :
  well_formed N pb ->
  returns (setProblemImpl fresh pb st0) (fun st =>
    [/\ forall i, (i < N)%N ->
          q_abs st i = Ok (q_generic pb i)
          /\ at_ (hrEigen_ st) i = Ok (r_generic pb i),
        forall i, (0 < i < N)%N -> r_abs st i = Ok (r_generic pb i),
        r_abs st 0 = Ok (r_generic pb 0 + nth 0 (LQOCProblem.P_ pb) 0
                                           *m nth 0 (LQOCProblem.x_ pb) 0),
        q_abs st N = Ok (q_terminal pb N)
      & [/\ at_ (hS_ st) N = Ok nullptr, at_ (hR_ st) N = Ok nullptr
          & at_ (hr_ st) N = Ok nullptr]]).
Proof.
move=> wf; apply: returns_weaken (setProblemImpl_transcribed fresh st0 wf) _.
move=> st [tr _ _]; have [qN qi] := q_abs_transcribed tr.
have [r0 ri] := r_abs_transcribed tr; have [_ _ HrN] := tr_hr tr.
split=> //; last by rewrite (proj2 (tr_hS tr)) (proj2 (tr_hR tr)).
by move=> i lt_i; rewrite qi // (proj2 (tr_hrEigen tr)).
Qed.

(** C1, as amended: when [b_i = 0] and [x_(i+1) = A_i x_i + B_i u_i] at
    every stage, the offset handed to the solver is the value of
    [b_i + x_(i+1) - A_i x_i - B_i u_i] for an interior stage
    [i = 1..N-1] and of [b_0 + x_1 - B_0 u_0] for the first stage; in
    exact arithmetic, which [R] stands for, the first expression is zero
    at every stage and the second is [A_0 x_0]. In [double] the interior
    offset is what rounding leaves of the first expression: see
    [interior_offset_rounding_residue]. *)
Theorem roundtrip_offsets_exact_arithmetic fresh N (pb : Problem)
    (st0 : Interface) :
  well_formed N pb -> dynamics_consistent N pb ->
  [/\ returns (setProblemImpl fresh pb st0) (fun st =>
        (forall i, (0 < i < N)%N -> b_abs st i = Ok (b_generic pb i))
        /\ b_abs st 0 = Ok (b_first pb)),
      forall i, (i < N)%N -> b_generic pb i = 0
    & b_first pb = nth 0 (LQOCProblem.A_ pb) 0
                   *m nth 0 (LQOCProblem.x_ pb) 0].
Proof.
move=> wf dyn; have [[N_gt0 _ _ _] _] := well_formed_sizes wf; split.
- apply: returns_weaken (setProblemImpl_transcribed fresh st0 wf) _.
  by move=> st [tr _ _]; have [b0 bi] := b_abs_transcribed tr.
- move=> i lt_i; have [bz xs] := dyn i lt_i.
  by rewrite /b_generic bz xs add0r addrAC addrK subrr.
- have [bz xs] := dyn 0 N_gt0.
  by rewrite /b_first bz xs add0r addrK.
Qed.

End Interface.

(** The example's nominal trajectory satisfies its dynamics. *)
Lemma example_dynamics_consistent :
  HPIPMInterface.dynamics_consistent 2 example_problem.
Proof.
by case=> [|[|//]] _; rewrite /= !mul1mx ?mulmx0 ?addr0.
Qed.

(** The dynamics offsets of the horizon-2 example. *)
Lemma dynamics_offset_transcription_witness :
  HPIPMInterface.well_formed 2 example_problem
  /\ returns
       (HPIPMInterface.setProblemImpl example_fresh example_problem
          example_interface)
       (fun st =>
          [/\ forall i, (0 < i < 2)%N ->
                HPIPMInterface.b_abs st i
                = Ok (HPIPMInterface.b_generic example_problem i),
              HPIPMInterface.b_abs st 0
              = Ok (HPIPMInterface.b_first example_problem)
            & HPIPMInterface.b_first example_problem
              = HPIPMInterface.b_generic example_problem 0
                + nth 0 (LQOCProblem.A_ example_problem) 0
                  *m nth 0 (LQOCProblem.x_ example_problem) 0]).
Proof.
split; first by [].
exact: (@dynamics_offset_transcription rat 1 1 example_fresh 2
          example_problem example_interface isT).
Defined.

(** The gradient offsets of the horizon-2 example. *)
Lemma gradient_offset_transcription_witness :
  HPIPMInterface.well_formed 2 example_problem
  /\ returns
       (HPIPMInterface.setProblemImpl example_fresh example_problem
          example_interface)
       (fun st =>
          [/\ forall i, (i < 2)%N ->
                HPIPMInterface.q_abs st i
                = Ok (HPIPMInterface.q_generic example_problem i)
                /\ at_ (HPIPMInterface.hrEigen_ st) i
                   = Ok (HPIPMInterface.r_generic example_problem i),
              forall i, (0 < i < 2)%N ->
                HPIPMInterface.r_abs st i
                = Ok (HPIPMInterface.r_generic example_problem i),
              HPIPMInterface.r_abs st 0
              = Ok (HPIPMInterface.r_generic example_problem 0
                    + nth 0 (LQOCProblem.P_ example_problem) 0
                      *m nth 0 (LQOCProblem.x_ example_problem) 0),
              HPIPMInterface.q_abs st 2
              = Ok (HPIPMInterface.q_terminal example_problem 2)
            & [/\ at_ (HPIPMInterface.hS_ st) 2 = Ok HPIPMInterface.nullptr,
                  at_ (HPIPMInterface.hR_ st) 2 = Ok HPIPMInterface.nullptr
                & at_ (HPIPMInterface.hr_ st) 2 = Ok HPIPMInterface.nullptr]]).
Proof.
split; first by [].
exact: (@gradient_offset_transcription rat 1 1 example_fresh 2
          example_problem example_interface isT).
Defined.

(** The round trip on the horizon-2 example. *)
Lemma roundtrip_offsets_exact_arithmetic_witness :
  [/\ HPIPMInterface.well_formed 2 example_problem,
      HPIPMInterface.dynamics_consistent 2 example_problem
    & [/\ returns
            (HPIPMInterface.setProblemImpl example_fresh example_problem
               example_interface)
            (fun st =>
               (forall i, (0 < i < 2)%N ->
                  HPIPMInterface.b_abs st i
                  = Ok (HPIPMInterface.b_generic example_problem i))
               /\ HPIPMInterface.b_abs st 0
                  = Ok (HPIPMInterface.b_first example_problem)),
          forall i, (i < 2)%N ->
            HPIPMInterface.b_generic example_problem i = 0
        & HPIPMInterface.b_first example_problem
          = nth 0 (LQOCProblem.A_ example_problem) 0
            *m nth 0 (LQOCProblem.x_ example_problem) 0]].
Proof.
split; [by [] | exact: example_dynamics_consistent |].
exact: (@roundtrip_offsets_exact_arithmetic rat 1 1 example_fresh 2
          example_problem example_interface isT example_dynamics_consistent).
Defined.

(** C1 as stated fails at the first stage: on the example, whose nominal
    trajectory satisfies the dynamics with [b_0 = 0], the transcribed
    offset of stage 0 is [A_0 x_0 = 1], not zero. *)
Lemma roundtrip_first_stage_offset_nonzero :
  [/\ HPIPMInterface.well_formed 2 example_problem,
      HPIPMInterface.dynamics_consistent 2 example_problem
    & returns
        (HPIPMInterface.setProblemImpl example_fresh example_problem
           example_interface)
        (fun st => HPIPMInterface.b_abs st 0 <> Ok 0)].
Proof.
split; [by [] | exact: example_dynamics_consistent |].
apply: returns_weaken
  (@setProblemImpl_transcribed rat 1 1 example_fresh 2 example_problem
     example_interface isT) _.
move=> st [tr _ _]; have [-> _] := b_abs_transcribed tr.
rewrite /HPIPMInterface.b_first /= mulmx0 subr0 add0r => -[] /matrixP /(_ 0 0).
by rewrite !mxE.
Qed.

(** ** The HPIPM interface: reading the solution back *)

Section Solution.

Variable R : realFieldType.
Variables n m : nat.

Local Notation Problem := (LQOCProblem.t R n m).
Local Notation Interface := (HPIPMInterface.t R n m).
Local Notation sized N s :=
  [/\ size s.1.1 = N.+1, size s.1.2 = N & size s.2 = N].

Import HPIPMInterface.

Lemma configured_with_solution N (st : Interface) hx hpi hu sol pb :
  configured N st -> size hx = N.+1 -> size hpi = N -> size hu = N ->
  configured N (with_solution st hx hpi hu sol pb).
Proof. by case=> *; split. Qed.

Lemma copy_control_sized N cnt p (v : 'cV[R]_m)
    (s : seq 'cV[R]_n * seq 'cV[R]_n * seq 'cV[R]_m) :
  sized N s -> cnt = 0 \/ (exists2 i, p = data_hu i & (i < N)%N) ->
  returns (copy_control cnt p v s) (fun s' => sized N s').
Proof.
case: s => [[hx hpi] hu] /= [sx sp su] Hp; rewrite /copy_control.
case: eqP Hp => [_ _|ne0 [//|[i -> lt_i]]]; first exact: returns_Ok.
apply: returns_bind (returns_assign v _) _ => [|hu' [su' _]]; first by rewrite su.
by apply: returns_Ok; split; rewrite //= su'.
Qed.

Lemma copy_state_sized N cnt p (v : 'cV[R]_n)
    (s : seq 'cV[R]_n * seq 'cV[R]_n * seq 'cV[R]_m) :
  sized N s ->
  [\/ cnt = 0, exists2 i, p = data_hx i & (i < N.+1)%N
    | exists2 i, p = data_hpi i & (i < N)%N] ->
  returns (copy_state cnt p v s) (fun s' => sized N s').
Proof.
case: s => [[hx hpi] hu] /= [sx sp su] Hp; rewrite /copy_state.
case: eqP Hp => [_ _|ne0 [//|[i -> lt_i]|[i -> lt_i]]]; first exact: returns_Ok.
  apply: returns_bind (returns_assign v _) _ => [|hx' [sx' _]].
    by rewrite sx.
  by apply: returns_Ok; split; rewrite //= sx'.
apply: returns_bind (returns_assign v _) _ => [|hpi' [sp' _]]; first by rewrite sp.
by apply: returns_Ok; split; rewrite //= sp'.
Qed.

Lemma d_cvt_ocp_qp_sol_to_colmaj_configured N (st : Interface) :
  configured N st ->
  returns (d_cvt_ocp_qp_sol_to_colmaj st) (fun st' =>
    configured N st' /\ lqocProblem_ st' = lqocProblem_ st).
Proof.
move=> cfg; rewrite /d_cvt_ocp_qp_sol_to_colmaj (cfg_N cfg).
have [snx nx0] := cfg_nx cfg; have [snu nuN] := cfg_nu cfg.
have [sx Hx] := cfg_x cfg; have [su Hu] := cfg_u cfg.
have [sp Hp] := cfg_pi cfg.
apply: (@returns_bind _ _ _ _ (fun s => sized N s)).
  apply: (@returns_bind _ _ _ _ (fun s => sized N s)).
    apply: (@returns_for_loop _ _ (fun _ s => sized N s)) => //.
      by split; case: cfg.
    move=> ii s /andP[_]; rewrite ltnS => le_ii sz.
    have Hstate (s1 : seq 'cV[R]_n * seq 'cV[R]_n * seq 'cV[R]_m) :
        sized N s1 ->
        returns (at_ (nx_ st) ii >>= fun nx => at_ (x_ st) ii >>= fun px =>
                 copy_state nx px (sol_x (qp_sol_ st) ii) s1)
          (fun s' => sized N s').
      move=> sz1; case: ii le_ii => [_|ii le_ii].
        rewrite nx0 bind_Ok.
        apply: returns_bind (returns_at nullptr _) _ => [|px _].
          by rewrite sx.
        by apply: copy_state_sized => //; constructor 1.
      apply: returns_bind (returns_at 0 _) _ => [|nx _]; first by rewrite snx ltnS.
      rewrite Hx // bind_Ok.
      by apply: copy_state_sized => //; constructor 2; exists ii.+1.
    move: le_ii; rewrite leq_eqVlt => /orP[/eqP Eii|lt_ii].
      rewrite {1 2}Eii nuN bind_Ok.
      apply: returns_bind (returns_at nullptr _) _ => [|pu _]; first by rewrite su.
      by apply: returns_bind (copy_control_sized _ sz _) Hstate; left.
    apply: returns_bind (returns_at 0 _) _ => [|nu _].
      by rewrite snu ltnS ltnW.
    rewrite Hu // bind_Ok.
    by apply: returns_bind (copy_control_sized _ sz _) Hstate; right; exists ii.
  move=> s sz.
  apply: (@returns_for_loop _ _ (fun _ s => sized N s)) => //.
  move=> ii s1 /andP[_ lt_ii] sz1.
  apply: returns_bind (returns_at 0 _) _ => [|nx _]; first by rewrite snx ltnS.
  rewrite Hp // bind_Ok.
  by apply: copy_state_sized => //; constructor 3; exists ii.
case=> [[hx hpi] hu] /= [szx szp szu]; apply: returns_Ok; split=> //.
exact: configured_with_solution.
Qed.

(** C7: once a problem of horizon [N] is set and solved, whatever the
    solver's answer, getSolutionState returns [N + 1] states whose first
    is the problem's initial state [x_0] itself, and getSolutionControl
    returns exactly [N] controls, with none for the terminal stage. *)
Theorem solution_keeps_x0_and_has_N_controls fresh N (pb : Problem)
    (st0 : Interface) sol :
  well_formed N pb ->
  returns (setProblem fresh pb st0) (fun st =>
    returns (getSolutionState (solve sol st)) (fun r =>
      at_ r.1 0 = Ok (nth 0 (LQOCProblem.x_ pb) 0) /\ size r.1 = N.+1)
    /\ returns (getSolutionControl (solve sol st)) (fun r =>
         size r.1 = N /\ at_ r.1 N = Raise out_of_range)).
Proof.
move=> wf; have [[_ _ sx _] _] := well_formed_sizes wf.
apply: returns_weaken (setProblemImpl_transcribed fresh _ wf) _.
move=> st [_ cfg /= Epb].
have cfg' : configured N (solve sol st).
  by apply: configured_with_solution => //; case: cfg.
split.
  apply: returns_bind (d_cvt_ocp_qp_sol_to_colmaj_configured cfg') _.
  move=> st1 [cfg1 ->]; rewrite /= Epb.
  apply: returns_bind (returns_at 0 _) _ => [|x0 ->]; first by rewrite sx.
  apply: returns_bind (returns_assign _ _) _ => [|hx [shx Hhx]].
    by rewrite (cfg_hx cfg1).
  by apply: returns_Ok; rewrite /= Hhx shx (cfg_hx cfg1).
apply: returns_bind (d_cvt_ocp_qp_sol_to_colmaj_configured cfg') _.
move=> st1 [cfg1 _]; apply: returns_Ok; rewrite /= (cfg_hu cfg1); split=> //.
by rewrite /at_ onth_default // (cfg_hu cfg1).
Qed.

End Solution.

(** The solution read back on the horizon-2 example. *)
Lemma solution_keeps_x0_and_has_N_controls_witness :
  HPIPMInterface.well_formed 2 example_problem
  /\ returns
       (HPIPMInterface.setProblem example_fresh example_problem
          example_interface)
       (fun st =>
          returns
            (HPIPMInterface.getSolutionState
               (HPIPMInterface.solve example_solution st))
            (fun r =>
               at_ r.1 0 = Ok (nth 0 (LQOCProblem.x_ example_problem) 0)
               /\ size r.1 = 3)
          /\ returns
               (HPIPMInterface.getSolutionControl
                  (HPIPMInterface.solve example_solution st))
               (fun r => size r.1 = 2 /\ at_ r.1 2 = Raise out_of_range)).
Proof.
split; first by [].
exact: (@solution_keeps_x0_and_has_N_controls rat 1 1 example_fresh 2
          example_problem example_interface example_solution isT).
Defined.

(** * Further properties of the code

    ** The structural tests of LTISystem *)

Section MoreStructuralTests.

Variable R : realFieldType.
Variables n m : nat.

(** A matrix of [n] block columns is determined by its blocks. *)
Lemma block_columns_inj (X Y : 'M[R]_(n, n * m)) :
  (forall i, (i < n)%N -> block_get n m X 0 (i * m) = block_get n m Y 0 (i * m)) ->
  X = Y.
Proof.
move=> blocks; apply/matrixP=> a b.
have m_gt0 : (0 < m)%N by case: m b => [|//] [b]; rewrite muln0.
have lt_i : (b %/ m < n)%N by rewrite ltn_divLR.
have := blocks _ lt_i; rewrite /block_get /block_in_range add0n leqnn /=.
rewrite addnC -mulSn leq_mul2r lt_i orbT => -[/matrixP E].
have := E a (Ordinal (ltn_pmod b m_gt0)); rewrite !mxE /= add0n -divn_eq.
by rewrite !coef_ord.
Qed.

Lemma computeControllabilityMatrix_small (sys : LTISystem.t R n m)
    (CO0 CO1 : 'M[R]_(n, n * m)) :
  LTISystem.computeControllabilityMatrix sys CO0
  = LTISystem.computeControllabilityMatrix sys CO1.
Proof.
case: (posnP n) => [n0|n_gt0].
  congr (LTISystem.computeControllabilityMatrix _ _); apply/matrixP=> a.
  by have := ltn_ord a; rewrite {2}n0.
have [X -> HX] := computeControllabilityMatrix_blocks sys CO0 n_gt0.
have [Y -> HY] := computeControllabilityMatrix_blocks sys CO1 n_gt0.
by congr Ok; apply: block_columns_inj => i lt_i; rewrite HX // HY.
Qed.

Lemma coef0 p q i j : coef (0 : 'M[R]_(p, q)) i j = 0.
Proof.
rewrite /coef; case: insubP => // i' _ _; case: insubP => // j' _ _.
by rewrite mxE.
Qed.

(** X1: from state dimension 2 on, computeObservabilityMatrix and
    isObservable fail on every system: the first pass of the loop
    assigns a block below the last row of [O]. *)
Theorem observability_fails_from_dim2 (sys : LTISystem.t R n m)
    (O : 'M[R]_(n, n * n)) :
  (1 < n)%N ->
  LTISystem.computeObservabilityMatrix sys O = Raise eigen_assert
  /\ LTISystem.isObservable sys O = Raise eigen_assert.
Proof.
move=> n_gt1; rewrite /LTISystem.isObservable.
by rewrite computeObservabilityMatrix_out_of_range.
Qed.

(** X2: the controllability matrix and the answer of isControllable do
    not depend on what the matrix [CO] held before the call (in
    isControllable it is not initialised). *)
Theorem controllability_ignores_initial_content (sys : LTISystem.t R n m)
    (CO0 CO1 : 'M[R]_(n, n * m)) :
  LTISystem.computeControllabilityMatrix sys CO0
  = LTISystem.computeControllabilityMatrix sys CO1
  /\ LTISystem.isControllable sys CO0 = LTISystem.isControllable sys CO1.
Proof.
rewrite /LTISystem.isControllable.
by rewrite (computeControllabilityMatrix_small sys CO0 CO1).
Qed.

(** X4: a system with [B = 0] is not controllable. *)
Theorem zero_B_is_not_controllable (A : 'M[R]_n) (C : option 'M[R]_n)
    (D : option 'M[R]_(n, m)) (CO : 'M[R]_(n, n * m)) :
  (0 < n)%N ->
  LTISystem.isControllable (LTISystem.make A 0 C D) CO = Ok false.
Proof.
move=> n_gt0.
have [X E HX] :=
  computeControllabilityMatrix_blocks (LTISystem.make A 0 C D) CO n_gt0.
rewrite /LTISystem.isControllable E /=; congr Ok.
have -> : X = 0; last by rewrite mxrank0 eq_sym (gtn_eqF n_gt0).
apply: block_columns_inj => i lt_i; rewrite HX //= mulmx0.
rewrite /block_get /block_in_range add0n leqnn addnC -mulSn leq_mul2r lt_i orbT.
by congr Ok; apply/matrixP=> a b; rewrite !mxE coef0.
Qed.

End MoreStructuralTests.

Section ObservabilityDim1.

Variable R : realFieldType.
Variable m : nat.


End ObservabilityDim1.

Lemma observability_fails_from_dim2_witness :
  (1 < 2)%N
  /\ (LTISystem.computeObservabilityMatrix
        (LTISystem.make (1%:M : 'M[rat]_2) (0 : 'M[rat]_(2, 1)) None None) 0
      = Raise eigen_assert
      /\ LTISystem.isObservable
           (LTISystem.make (1%:M : 'M[rat]_2) (0 : 'M[rat]_(2, 1)) None None) 0
         = Raise eigen_assert).
Proof.
split; first by [].
exact: (@observability_fails_from_dim2 rat 2 1
          (LTISystem.make 1%:M 0 None None) 0 isT).
Defined.

Lemma zero_B_is_not_controllable_witness :
  (0 < 1)%N
  /\ LTISystem.isControllable
       (LTISystem.make (1%:M : 'M[rat]_1) (0 : 'M[rat]_1) None None) 0
     = Ok false.
Proof.
split; first by [].
exact: (@zero_B_is_not_controllable rat 1 1 1%:M None None 0 isT).
Defined.

(** ** The Gramian loops *)

Section MoreGramians.

Variable R : realFieldType.
Variables n m : nat.
Variable sys : LTISystem.t R n m.

Lemma lpNorm1_ge0 p q (M : 'M[R]_(p, q)) : 0 <= lpNorm1 M.
Proof. by rewrite /lpNorm1; do 2!apply: sumr_ge0 => ? _. Qed.

(** X6: with a tolerance that is zero or negative the loops never stop
    early: the Gramians returned are the sums of exactly [max_iters]
    terms. *)
Theorem gramian_nonpositive_tolerance_runs_all (tol : R) (max_iters : nat) :
  tol <= 0 ->
  LTISystem.computeControllabilityGramian DISCRETE_TIME sys max_iters tol
  = Ok (LTISystem.ctrb_partial_sum sys max_iters)
  /\ LTISystem.computeObservabilityGramian DISCRETE_TIME sys max_iters tol
     = Ok (LTISystem.obsv_partial_sum sys max_iters).
Proof.
move=> tol_le0; split.
- have [K [_ _ HK] E] := ctrb_stop sys tol max_iters.
  rewrite /LTISystem.computeControllabilityGramian E ctrb_iterate_sum /=.
  case: HK => [-> //|[_]]; rewrite /LTISystem.ctrb_converged => lt_tol.
  by have := le_lt_trans (lpNorm1_ge0 _) (lt_le_trans lt_tol tol_le0);
     rewrite ltxx.
- have [K [_ _ HK] E] := obsv_stop sys tol max_iters.
  rewrite /LTISystem.computeObservabilityGramian E obsv_iterate_sum /=.
  case: HK => [-> //|[_]]; rewrite /LTISystem.obsv_converged => lt_tol.
  by have := le_lt_trans (lpNorm1_ge0 _) (lt_le_trans lt_tol tol_le0);
     rewrite ltxx.
Qed.

Lemma ctrb_partial_sumS K :
  LTISystem.ctrb_partial_sum sys K.+1
  = LTISystem.B_ sys *m (LTISystem.B_ sys)^T
    + LTISystem.A_ sys *m LTISystem.ctrb_partial_sum sys K
      *m (LTISystem.A_ sys)^T.
Proof.
rewrite /LTISystem.ctrb_partial_sum big_ord_recl; congr (_ + _).
  by rewrite /mxpow /= mul1mx trmx1 mulmx1.
rewrite mulmx_sumr mulmx_suml; apply: eq_bigr => i _.
have -> : mxpow (LTISystem.A_ sys) (lift ord0 i)
          = LTISystem.A_ sys *m mxpow (LTISystem.A_ sys) i.
  by rewrite mxpow_comm.
by rewrite trmx_mul !mulmxA.
Qed.

Lemma obsv_partial_sumS K :
  LTISystem.obsv_partial_sum sys K.+1
  = (LTISystem.C_ sys)^T *m LTISystem.C_ sys
    + (LTISystem.A_ sys)^T *m LTISystem.obsv_partial_sum sys K
      *m LTISystem.A_ sys.
Proof.
rewrite /LTISystem.obsv_partial_sum big_ord_recl; congr (_ + _).
  by rewrite /mxpow /= trmx1 mul1mx mulmx1.
rewrite mulmx_sumr mulmx_suml; apply: eq_bigr => i _.
have -> : mxpow (LTISystem.A_ sys) (lift ord0 i)
          = mxpow (LTISystem.A_ sys) i *m LTISystem.A_ sys by [].
by rewrite trmx_mul !mulmxA.
Qed.

End MoreGramians.

Section SpecialGramians.

Variable R : realFieldType.
Variables n m : nat.

(** X9: with a positive tolerance, a system without input ([B = 0])
    has the controllability Gramian zero, and one without output
    ([C = 0]) the observability Gramian zero, whatever [A] and the
    iteration cap: the loop stops in its first pass, where the increment
    is zero, before [A] is used. *)
Theorem gramian_of_zero_B_or_C (A : 'M[R]_n) (B : 'M[R]_(n, m))
    (C : option 'M[R]_n) (D : option 'M[R]_(n, m)) (tol : R)
    (max_iters : nat) :
  0 < tol ->
  [/\ LTISystem.computeControllabilityGramian DISCRETE_TIME
        (LTISystem.make A 0 C D) max_iters tol = Ok 0,
      LTISystem.stops_at
        (LTISystem.ctrb_converged (LTISystem.make A 0 C D) tol)
        max_iters (minn max_iters 1),
      LTISystem.computeObservabilityGramian DISCRETE_TIME
        (LTISystem.make A B (Some 0) D) max_iters tol = Ok 0
    & LTISystem.stops_at
        (LTISystem.obsv_converged (LTISystem.make A B (Some 0) D) tol)
        max_iters (minn max_iters 1)].
Proof.
move=> tol_gt0.
have norm0 : lpNorm1 (0 : 'M[R]_n) < tol.
  rewrite /lpNorm1 big1 // => i _; rewrite big1 // => j _.
  by rewrite mxE normr0.
have stop (conv : nat -> bool) : conv 1%N ->
    LTISystem.stops_at conv max_iters (minn max_iters 1).
  move=> conv1; split; first exact: geq_minl.
    by move=> j /andP[j_gt0 /leq_trans/(_ (geq_minr _ _))]; case: j j_gt0 => [|[]].
  by case: max_iters => [|k]; [left | right].
split.
- have [K _ E] := ctrb_stop (LTISystem.make A 0 C D) tol max_iters.
  rewrite /LTISystem.computeControllabilityGramian E ctrb_iterate_sum /=.
  rewrite /LTISystem.ctrb_partial_sum big1 // => i _ /=.
  by rewrite mulmx0 !mul0mx.
- apply: stop; rewrite /LTISystem.ctrb_converged /=.
  by rewrite mulmx0 !mul0mx addr0 subr0.
- have [K _ E] := obsv_stop (LTISystem.make A B (Some 0) D) tol max_iters.
  rewrite /LTISystem.computeObservabilityGramian E obsv_iterate_sum /=.
  rewrite /LTISystem.obsv_partial_sum big1 // => i _ /=.
  by rewrite mulmx0 !mul0mx.
- apply: stop; rewrite /LTISystem.obsv_converged /=.
  by rewrite mulmx0 !mul0mx addr0 subr0.
Qed.

(** X10: for [A = 0] and at least one iteration the controllability
    Gramian is [B B^T] and the observability Gramian is [C^T C], whatever
    the tolerance. *)
Theorem gramian_of_zero_A (B : 'M[R]_(n, m)) (C : 'M[R]_n)
    (D : option 'M[R]_(n, m)) (tol : R) (max_iters : nat) :
  (0 < max_iters)%N ->
  LTISystem.computeControllabilityGramian DISCRETE_TIME
    (LTISystem.make 0 B (Some C) D) max_iters tol = Ok (B *m B^T)
  /\ LTISystem.computeObservabilityGramian DISCRETE_TIME
       (LTISystem.make 0 B (Some C) D) max_iters tol = Ok (C^T *m C).
Proof.
move=> it_gt0; split.
- have [K [_ _ HK] E] := ctrb_stop (LTISystem.make 0 B (Some C) D) tol max_iters.
  rewrite /LTISystem.computeControllabilityGramian E ctrb_iterate_sum /=.
  have: (0 < K)%N by case: HK => [->|[]].
  by case: K {HK E} => // K _; rewrite ctrb_partial_sumS /= !mul0mx addr0.
- have [K [_ _ HK] E] := obsv_stop (LTISystem.make 0 B (Some C) D) tol max_iters.
  rewrite /LTISystem.computeObservabilityGramian E obsv_iterate_sum /=.
  have: (0 < K)%N by case: HK => [->|[]].
  by case: K {HK E} => // K _; rewrite obsv_partial_sumS /= trmx0 !mul0mx addr0.
Qed.

End SpecialGramians.

Lemma gramian_of_zero_B_or_C_witness :
  (0 : rat) < 1
  /\ [/\ LTISystem.computeControllabilityGramian DISCRETE_TIME
           (LTISystem.make (1%:M : 'M[rat]_2) (0 : 'M[rat]_(2, 1)) None None)
           5 1 = Ok 0,
         LTISystem.stops_at
           (LTISystem.ctrb_converged
              (LTISystem.make (1%:M : 'M[rat]_2) (0 : 'M[rat]_(2, 1))
                 None None) 1)
           5 (minn 5 1),
         LTISystem.computeObservabilityGramian DISCRETE_TIME
           (LTISystem.make (1%:M : 'M[rat]_2) (0 : 'M[rat]_(2, 1))
              (Some 0) None)
           5 1 = Ok 0
       & LTISystem.stops_at
           (LTISystem.obsv_converged
              (LTISystem.make (1%:M : 'M[rat]_2) (0 : 'M[rat]_(2, 1))
                 (Some 0) None) 1)
           5 (minn 5 1)].
Proof.
split; first by [].
exact: (@gramian_of_zero_B_or_C rat 2 1 1%:M 0 None None 1 5 isT).
Defined.

Lemma gramian_nonpositive_tolerance_runs_all_witness :
  (0 : rat) <= 0
  /\ (LTISystem.computeControllabilityGramian DISCRETE_TIME
        (LTISystem.make (1%:M : 'M[rat]_1) (1%:M : 'M[rat]_1) None None) 3 0
      = Ok (LTISystem.ctrb_partial_sum
              (LTISystem.make (1%:M : 'M[rat]_1) (1%:M : 'M[rat]_1)
                 None None) 3)
      /\ LTISystem.computeObservabilityGramian DISCRETE_TIME
           (LTISystem.make (1%:M : 'M[rat]_1) (1%:M : 'M[rat]_1) None None) 3 0
         = Ok (LTISystem.obsv_partial_sum
                 (LTISystem.make (1%:M : 'M[rat]_1) (1%:M : 'M[rat]_1)
                    None None) 3)).
Proof.
split; first by [].
exact: (@gramian_nonpositive_tolerance_runs_all rat 1 1
          (LTISystem.make 1%:M 1%:M None None) 0 3 (lexx 0)).
Defined.

Lemma gramian_of_zero_A_witness :
  (0 < 5)%N
  /\ (LTISystem.computeControllabilityGramian DISCRETE_TIME
        (LTISystem.make (0 : 'M[rat]_1) (1%:M : 'M[rat]_1) (Some 1%:M) None)
        5 1
      = Ok ((1%:M : 'M[rat]_1) *m (1%:M : 'M[rat]_1)^T)
      /\ LTISystem.computeObservabilityGramian DISCRETE_TIME
           (LTISystem.make (0 : 'M[rat]_1) (1%:M : 'M[rat]_1) (Some 1%:M)
              None) 5 1
         = Ok ((1%:M : 'M[rat]_1)^T *m (1%:M : 'M[rat]_1))).
Proof.
split; first by [].
exact: (@gramian_of_zero_A rat 1 1 1%:M 1%:M None 1 5 isT).
Defined.

(** ** The HPIPM interface: horizons and stage dimensions *)

Section MoreInterface.

Variable R : realFieldType.
Variables n m : nat.

Local Notation Problem := (LQOCProblem.t R n m).
Local Notation Interface := (HPIPMInterface.t R n m).

Import HPIPMInterface.

Lemma at_cases (T : Type) (s : seq T) i :
  (exists v, at_ s i = Ok v) \/ at_ s i = Raise out_of_range.
Proof. by rewrite /at_; case: (onth s i) => [v|]; [left; exists v | right]. Qed.

(** The stage dimensions after changeNumberOfStages, from those before. *)
Lemma changeNumberOfStages_dims fresh N (st0 : Interface) :
  returns (changeNumberOfStages fresh (Posz N) st0) (fun st =>
    nx_ st = 0 :: drop 1 (resize N.+1 (Posz n) (nx_ st0))
    /\ nu_ st = rcons (take N (resize N.+1 (Posz m) (nu_ st0))) 0).
Proof.
rewrite /changeNumberOfStages.
apply: (@returns_bind _ _ _ _ (fun=> True)).
  apply: returns_weaken (_ : returns _ (fun s =>
            filled N.+1 1 N.+1 data_hx s.1 /\ filled N.+1 0 N data_hu s.2)) _;
    last by [].
  apply: (@returns_for_loop _ _ (fun i s =>
            filled N.+1 1 i.+1 data_hx s.1 /\ filled N.+1 0 i data_hu s.2)) => //.
    by split; apply: filled_empty; rewrite size_resize.
  move=> i [x u] /andP[_ lt_i] /= [Hx Hu].
  apply: returns_bind (filled_assign Hx _) _ => // x' Hx'.
  apply: returns_bind (filled_assign Hu _) _ => [|u' Hu']; first exact: ltnW.
  exact: returns_Ok.
case=> x u _ /=.
apply: (@returns_bind _ _ _ _ (fun=> True)).
  apply: returns_weaken (_ : returns _ (filled N 0 N data_hpi)) _; last by [].
  apply: (@returns_for_loop _ _ (fun i => filled N 0 i data_hpi)) => //.
    by apply: filled_empty; rewrite size_resize.
  by move=> i s /andP[_ lt_i] Hs; apply: filled_assign.
move=> pi _; rewrite /assign !size_resize ltn0Sn ltnSn /=.
apply: returns_Ok; split=> /=; first by rewrite take0.
by rewrite -cats1 drop_oversize // size_resize.
Qed.

(** X12: on a new interface, changeNumberOfStages(N) sets the state
    dimension of stage 0 to 0 and of the stages [1..N] to [STATE_DIM], and
    the control dimension of the stages [0..N-1] to [CONTROL_DIM] and of
    stage [N] to 0. *)
Theorem fresh_stage_dimensions fresh junk N :
  returns (changeNumberOfStages fresh (Posz N) (init junk : Interface))
    (fun st => nx_ st = 0 :: nseq N (Posz n)
               /\ nu_ st = rcons (nseq N (Posz m)) 0).
Proof.
apply: returns_weaken (changeNumberOfStages_dims fresh N _) _ => st /= [-> ->].
have rs (T : Type) k (d : T) : resize k d [::] = nseq k d.
  by rewrite /resize /= subn0.
by rewrite !rs take_nseq //= drop0.
Qed.

(** X13: changing from a horizon [N1] to a longer one [N2] keeps the
    zero control dimension the first call gave stage [N1], which is an
    interior stage of the new horizon. *)
Theorem longer_horizon_keeps_zero_control_dimension fresh N1 N2
    (st0 : Interface) :
  (N1 < N2)%N ->
  returns (changeNumberOfStages fresh (Posz N1) st0
           >>= changeNumberOfStages fresh (Posz N2))
    (fun st => at_ (nu_ st) N1 = Ok 0 /\ at_ (nu_ st) N2 = Ok 0).
Proof.
move=> lt12.
apply: returns_bind (changeNumberOfStages_dims fresh N1 st0) _ => st1 [_ E1].
apply: returns_weaken (changeNumberOfStages_dims fresh N2 st1) _ => st [_ ->].
have sz1 : size (nu_ st1) = N1.+1.
  by rewrite E1 size_rcons size_take size_resize ltnSn.
have szt : size (take N2 (resize N2.+1 (Posz m) (nu_ st1))) = N2.
  by rewrite size_take size_resize ltnSn.
split; last by rewrite (at_nth 0) ?size_rcons ?szt // nth_rcons szt ltnn eqxx.
have lt1 : (N1 < size (rcons (take N2 (resize N2.+1 (Posz m) (nu_ st1))) 0))%N.
  by rewrite size_rcons szt ltnS ltnW.
rewrite (at_nth 0 lt1); congr Ok; rewrite nth_rcons szt lt12 nth_take //.
rewrite /resize take_oversize ?sz1; first by rewrite ltnS ltnW.
rewrite nth_cat sz1 ltnSn E1 nth_rcons size_take size_resize ltnSn.
by rewrite ltnn eqxx.
Qed.

End MoreInterface.

(** ** The HPIPM interface: more on the transcription *)

Section MoreTranscription.

Variable R : realFieldType.
Variables n m : nat.

Local Notation Problem := (LQOCProblem.t R n m).
Local Notation Interface := (HPIPMInterface.t R n m).

Import HPIPMInterface.

(** X14: a problem with no stage ([K_ = 0]) cannot be set, whatever its
    arrays hold: setupHPIPM writes the first-stage entry [hb_[0]] of an
    array that has no entry. *)
Theorem zero_horizon_is_out_of_range fresh (pb : Problem) (st0 : Interface) :
  LQOCProblem.K_ pb = 0 ->
  setProblemImpl fresh pb st0 = Raise out_of_range.
Proof.
move=> EK; rewrite /setProblemImpl /LQOCProblem.getNumberOfStages EK.
have [st1 -> [cfg _]] := changeNumberOfStages_configured fresh 0 st0.
rewrite /= /setupHPIPM (cfg_N cfg) /for_loop /=.
case: (at_cases (LQOCProblem.x_ pb) 0) => [[? ->]|-> //] /=.
case: (at_cases (LQOCProblem.b_ pb) 0) => [[? ->]|-> //] /=.
case: (at_cases (LQOCProblem.x_ pb) 1) => [[? ->]|-> //] /=.
case: (at_cases (LQOCProblem.B_ pb) 0) => [[? ->]|-> //] /=.
case: (at_cases (LQOCProblem.u_ pb) 0) => [[? ->]|-> //] /=.
by rewrite /assign (cfg_hb cfg).
Qed.

Local Notation only_out_of_range r :=
  (forall e, r = Raise e -> e = out_of_range).

Lemma oor_Ok (T : Type) (v : T) : only_out_of_range (Ok v).
Proof. by []. Qed.

Lemma oor_at (T : Type) (s : seq T) i : only_out_of_range (at_ s i).
Proof. by case: (at_cases s i) => [[v ->]|->] // e [<-]. Qed.

Lemma oor_assign (T : Type) (s : seq T) i w : only_out_of_range (assign s i w).
Proof. by rewrite /assign; case: ifP => // _ e [<-]. Qed.

Lemma oor_bind (S T : Type) (r : result S) (k : S -> result T) :
  only_out_of_range r -> (forall v, only_out_of_range (k v)) ->
  only_out_of_range (r >>= k).
Proof.
case: r => [v _ Hk|e He _] /=; first exact: Hk.
by move=> e' [<-]; apply: He.
Qed.

Lemma oor_for_loop (S : Type) (body : nat -> S -> result S) lo hi s :
  (forall i s, only_out_of_range (body i s)) ->
  only_out_of_range (for_loop lo hi body s).
Proof.
move=> Hbody; rewrite /for_loop.
elim: (iota _ _) (Ok s) (@oor_Ok _ s) => [|i l IH] acc Hacc //=.
by apply: IH; apply: oor_bind => // v; apply: Hbody.
Qed.

(** X15: setupHPIPM throws its "Time horizon not set" error exactly when
    the horizon [N_] is the -1 the constructor leaves; once the horizon
    is set, every failure is an access outside an array. *)
Theorem horizon_not_set_iff x u A B b P qv Q rv R' (st : Interface) :
  (setupHPIPM x u A B b P qv Q rv R' st
   = Raise (runtime_error "Time horizon not set, please set it first")
   <-> N_ st = -1)
  /\ (forall N, N_ st = Posz N ->
      forall e, setupHPIPM x u A B b P qv Q rv R' st = Raise e ->
                e = out_of_range).
Proof.
have Hset N : N_ st = Posz N ->
    only_out_of_range (setupHPIPM x u A B b P qv Q rv R' st).
  move=> EN; rewrite /setupHPIPM EN.
  apply: oor_bind => [|_]; first exact: oor_at.
  apply: oor_bind => [|[[[hA hB] bE] hb]].
    apply: oor_for_loop => i [[[hA hB] bE] hb].
    do 12![apply: oor_bind => [|?]; first by
             first [exact: oor_at | exact: oor_assign]].
    exact: oor_Ok.
  do 5![apply: oor_bind => [|?]; first by
          first [exact: oor_at | exact: oor_assign]].
  apply: oor_bind => [|[[[[[[hQ hS] hR] hqE] hq] hrE] hr]].
    apply: oor_for_loop => i [[[[[[hQ hS] hR] hqE] hq] hrE] hr].
    do 14![apply: oor_bind => [|?]; first by
             first [exact: oor_at | exact: oor_assign]].
    exact: oor_Ok.
  do 13![apply: oor_bind => [|?]; first by
           first [exact: oor_at | exact: oor_assign]].
  exact: oor_Ok.
split; last exact: Hset.
split=> [|E]; last by rewrite /setupHPIPM E.
case EN: (N_ st) => [N|[|k]] //; last by rewrite /setupHPIPM EN.
by move/(Hset _ EN).
Qed.

(** X16: the solver is handed the problem's own matrices, not copies:
    after setProblemImpl the entries of [hA_], [hB_], [hQ_], [hS_] and
    [hR_] point to [A[i]], [B[i]], [Q[i]], [P[i]] and [R[i]], and [x0_]
    to [x[0]]. *)
Theorem matrices_are_passed_by_pointer fresh N (pb : Problem)
    (st0 : Interface) :
  well_formed N pb ->
  returns (setProblemImpl fresh pb st0) (fun st =>
    [/\ forall i, (i < N)%N ->
          [/\ at_ (hA_ st) i = Ok (data_A i), at_ (hB_ st) i = Ok (data_B i),
              at_ (hS_ st) i = Ok (data_P i) & at_ (hR_ st) i = Ok (data_R i)],
        forall i, (i <= N)%N -> at_ (hQ_ st) i = Ok (data_Q i)
      & x0_ st = data_x 0]).
Proof.
move=> wf; apply: returns_weaken (setProblemImpl_transcribed fresh st0 wf) _.
move=> st [tr _ _]; split; last exact: tr_x0 tr.
  move=> i lt_i; split.
  - exact: (proj2 (tr_hA tr)).
  - exact: (proj2 (tr_hB tr)).
  - exact: (proj2 (proj1 (tr_hS tr))).
  - exact: (proj2 (proj1 (tr_hR tr))).
by move=> i le_i; apply: (proj2 (tr_hQ tr)).
Qed.

(** X17: around a zero nominal trajectory the transcription changes
    nothing: the solver gets [b_i], [q_i] and [r_i] themselves, at every
    stage. *)
Theorem zero_nominal_trajectory_keeps_offsets fresh N (pb : Problem)
    (st0 : Interface) :
  well_formed N pb ->
  (forall i, nth 0 (LQOCProblem.x_ pb) i = 0) ->
  (forall i, nth 0 (LQOCProblem.u_ pb) i = 0) ->
  returns (setProblemImpl fresh pb st0) (fun st =>
    [/\ forall i, (i < N)%N -> b_abs st i = Ok (nth 0 (LQOCProblem.b_ pb) i),
        forall i, (i <= N)%N -> q_abs st i = Ok (nth 0 (LQOCProblem.qv_ pb) i)
      & forall i, (i < N)%N -> r_abs st i = Ok (nth 0 (LQOCProblem.rv_ pb) i)]).
Proof.
move=> wf x0 u0; apply: returns_weaken (setProblemImpl_transcribed fresh st0 wf) _.
move=> st [tr _ _]; have [b0 bi] := b_abs_transcribed tr.
have [qN qi] := q_abs_transcribed tr; have [r0 ri] := r_abs_transcribed tr.
split=> [[|i] lt_i|i|[|i] lt_i].
- by rewrite b0 /b_first x0 u0 mulmx0 addr0 subr0.
- by rewrite bi // /b_generic !x0 u0 !mulmx0 addr0 !subr0.
- rewrite leq_eqVlt => /orP[/eqP->|lt_i].
    by rewrite qN /q_terminal x0 mulmx0 subr0.
  by rewrite qi // /q_generic x0 u0 !mulmx0 !subr0.
- by rewrite r0 /r_generic x0 u0 !mulmx0 !subr0 addr0.
- by rewrite ri // /r_generic x0 u0 !mulmx0 !subr0.
Qed.

End MoreTranscription.

(** ** The added interface properties on the horizon-2 examples *)

Lemma longer_horizon_keeps_zero_control_dimension_witness :
  (1 < 2)%N
  /\ returns
       (HPIPMInterface.changeNumberOfStages example_fresh 1 example_interface
        >>= HPIPMInterface.changeNumberOfStages example_fresh 2)
       (fun st => at_ (HPIPMInterface.nu_ st) 1 = Ok 0
                  /\ at_ (HPIPMInterface.nu_ st) 2 = Ok 0).
Proof.
split; first by [].
exact: (@longer_horizon_keeps_zero_control_dimension rat 1 1 example_fresh
          1 2 example_interface isT).
Defined.

Lemma zero_horizon_is_out_of_range_witness :
  LQOCProblem.K_ example_zero_horizon = 0
  /\ HPIPMInterface.setProblemImpl example_fresh example_zero_horizon
       example_interface = Raise out_of_range.
Proof.
split; first by [].
exact: (@zero_horizon_is_out_of_range rat 1 1 example_fresh
          example_zero_horizon example_interface erefl).
Defined.

Lemma matrices_are_passed_by_pointer_witness :
  HPIPMInterface.well_formed 2 example_problem
  /\ returns
       (HPIPMInterface.setProblemImpl example_fresh example_problem
          example_interface)
       (fun st =>
          [/\ forall i, (i < 2)%N ->
                [/\ at_ (HPIPMInterface.hA_ st) i
                    = Ok (HPIPMInterface.data_A i),
                    at_ (HPIPMInterface.hB_ st) i
                    = Ok (HPIPMInterface.data_B i),
                    at_ (HPIPMInterface.hS_ st) i
                    = Ok (HPIPMInterface.data_P i)
                  & at_ (HPIPMInterface.hR_ st) i
                    = Ok (HPIPMInterface.data_R i)],
              forall i, (i <= 2)%N ->
                at_ (HPIPMInterface.hQ_ st) i = Ok (HPIPMInterface.data_Q i)
            & HPIPMInterface.x0_ st = HPIPMInterface.data_x 0]).
Proof.
split; first by [].
exact: (@matrices_are_passed_by_pointer rat 1 1 example_fresh 2
          example_problem example_interface isT).
Defined.

Lemma example_zero_nominal_x i :
  nth 0 (LQOCProblem.x_ example_zero_nominal) i = 0.
Proof. by do 4?case: i => [|i]. Qed.

Lemma example_zero_nominal_u i :
  nth 0 (LQOCProblem.u_ example_zero_nominal) i = 0.
Proof. by do 3?case: i => [|i]. Qed.

Lemma zero_nominal_trajectory_keeps_offsets_witness :
  [/\ HPIPMInterface.well_formed 2 example_zero_nominal,
      forall i, nth 0 (LQOCProblem.x_ example_zero_nominal) i = 0
    & forall i, nth 0 (LQOCProblem.u_ example_zero_nominal) i = 0]
  /\ returns
       (HPIPMInterface.setProblemImpl example_fresh example_zero_nominal
          example_interface)
       (fun st =>
          [/\ forall i, (i < 2)%N ->
                HPIPMInterface.b_abs st i
                = Ok (nth 0 (LQOCProblem.b_ example_zero_nominal) i),
              forall i, (i <= 2)%N ->
                HPIPMInterface.q_abs st i
                = Ok (nth 0 (LQOCProblem.qv_ example_zero_nominal) i)
            & forall i, (i < 2)%N ->
                HPIPMInterface.r_abs st i
                = Ok (nth 0 (LQOCProblem.rv_ example_zero_nominal) i)]).
Proof.
split.
  by split=> //; [apply: example_zero_nominal_x | apply: example_zero_nominal_u].
exact: (@zero_nominal_trajectory_keeps_offsets rat 1 1 example_fresh 2
          example_zero_nominal example_interface isT
          example_zero_nominal_x example_zero_nominal_u).
Defined.

(** ** The HPIPM interface: the solver's answer read back *)

Section SolutionRoundTrip.

Variable R : realFieldType.
Variables n m : nat.

Local Notation Problem := (LQOCProblem.t R n m).
Local Notation Interface := (HPIPMInterface.t R n m).
Local Notation buffers := (seq 'cV[R]_n * seq 'cV[R]_n * seq 'cV[R]_m)%type.

Import HPIPMInterface.

Lemma bind_frame (S T : Type) (P : T -> Prop) (r : result S)
    (k : S -> result T) :
  (forall w v, k w = Ok v -> P v) -> forall v, r >>= k = Ok v -> P v.
Proof. by case: r => //= w Hk v; apply: Hk. Qed.

(** setupHPIPM leaves the stage dimensions alone. *)
Lemma setupHPIPM_dims x u A B b P qv Q rv R' (st st' : Interface) :
  setupHPIPM x u A B b P qv Q rv R' st = Ok st' ->
  nx_ st' = nx_ st /\ nu_ st' = nu_ st.
Proof.
rewrite /setupHPIPM; case: (N_ st) => [N|[|k]] //; move: st'.
apply: bind_frame => _.
apply: bind_frame => -[[[hA hB] bE] hb].
do 5!apply: bind_frame => ?.
apply: bind_frame => -[[[[[[hQ hS] hR] hqE] hq] hrE] hr].
do 13!apply: bind_frame => ?.
by move=> v [<-].
Qed.

Lemma vector_dim0 k (v w : 'cV[R]_k) : Posz k = 0 -> v = w.
Proof.
case=> k0; apply/matrixP=> i j.
by have := ltn_ord i; rewrite {2}k0.
Qed.

Lemma copy_control_none p (v : 'cV[R]_m) (s : buffers) :
  copy_control 0 p v s = Ok s.
Proof. by case: s => [[hx hpi] hu]. Qed.

Lemma copy_control_at N (v : 'cV[R]_m) ii (s : buffers) :
  size s.2 = N -> (ii < N)%N ->
  returns (copy_control (Posz m) (data_hu ii) v s) (fun s' =>
    [/\ s'.1 = s.1, size s'.2 = N
      & forall j, at_ s'.2 j = if j == ii then Ok v else at_ s.2 j]).
Proof.
case: s => [[hx hpi] hu] /= su lt_i; rewrite /copy_control.
case: eqP => [m0|_].
  apply: returns_Ok; split=> // j; case: eqP => // ->.
  by rewrite (at_nth 0) ?su //; congr Ok; apply: vector_dim0.
apply: returns_bind (returns_assign v _) _ => [|hu' [su' Hu']]; first by rewrite su.
by apply: returns_Ok; split=> //=; rewrite su'.
Qed.

Lemma copy_state_at N (v : 'cV[R]_n) ii (s : buffers) :
  size s.1.1 = N.+1 -> (ii < N.+1)%N ->
  returns (copy_state (Posz n) (data_hx ii) v s) (fun s' =>
    [/\ s'.1.2 = s.1.2, s'.2 = s.2, size s'.1.1 = N.+1
      & forall j, at_ s'.1.1 j = if j == ii then Ok v else at_ s.1.1 j]).
Proof.
case: s => [[hx hpi] hu] /= sx lt_i; rewrite /copy_state.
case: eqP => [n0|_].
  apply: returns_Ok; split=> // j; case: eqP => // ->.
  by rewrite (at_nth 0) ?sx //; congr Ok; apply: vector_dim0.
apply: returns_bind (returns_assign v _) _ => [|hx' [sx' Hx']]; first by rewrite sx.
by apply: returns_Ok; split=> //=; rewrite sx'.
Qed.

Lemma copy_state_pi N cnt (v : 'cV[R]_n) ii (s : buffers) :
  size s.1.2 = N -> (ii < N)%N ->
  returns (copy_state cnt (data_hpi ii) v s) (fun s' =>
    [/\ s'.1.1 = s.1.1, s'.2 = s.2 & size s'.1.2 = N]).
Proof.
case: s => [[hx hpi] hu] /= sp lt_i; rewrite /copy_state.
case: eqP => [_|_]; first exact: returns_Ok.
apply: returns_bind (returns_assign v _) _ => [|hp' [sp' _]]; first by rewrite sp.
by apply: returns_Ok; split=> //=; rewrite sp'.
Qed.

Lemma d_cvt_ocp_qp_sol_to_colmaj_fresh N (st : Interface) :
  configured N st ->
  nx_ st = 0 :: nseq N (Posz n) -> nu_ st = rcons (nseq N (Posz m)) 0 ->
  returns (d_cvt_ocp_qp_sol_to_colmaj st) (fun st' =>
    [/\ configured N st', lqocProblem_ st' = lqocProblem_ st,
        forall j, (0 < j <= N)%N -> at_ (hx_ st') j = Ok (sol_x (qp_sol_ st) j)
      & forall j, (j < N)%N -> at_ (hu_ st') j = Ok (sol_u (qp_sol_ st) j)]).
Proof.
move=> cfg Enx Enu; rewrite /d_cvt_ocp_qp_sol_to_colmaj (cfg_N cfg).
have [sx Hx] := cfg_x cfg; have [su Hu] := cfg_u cfg.
have [sp Hp] := cfg_pi cfg.
pose Inv ii (s : buffers) :=
  [/\ size s.1.1 = N.+1, size s.1.2 = N, size s.2 = N,
      forall j, (0 < j < ii)%N -> at_ s.1.1 j = Ok (sol_x (qp_sol_ st) j)
    & forall j, (j < ii)%N -> (j < N)%N -> at_ s.2 j = Ok (sol_u (qp_sol_ st) j)].
apply: (@returns_bind _ _ _ _ (Inv N.+1)).
  apply: (@returns_bind _ _ _ _ (Inv N.+1)).
    apply: (@returns_for_loop _ _ Inv) => //.
      split; rewrite /= ?(cfg_hx cfg) ?(cfg_hpi cfg) ?(cfg_hu cfg) // => j.
      by rewrite ltn0 andbF.
    move=> ii s /andP[_]; rewrite ltnS => le_ii [s1 s2 s3 Hsx Hsu].
    have Hstate (s1' : buffers) :
        [/\ size s1'.1.1 = N.+1, size s1'.1.2 = N, size s1'.2 = N,
            forall j, (0 < j < ii)%N ->
              at_ s1'.1.1 j = Ok (sol_x (qp_sol_ st) j)
          & forall j, (j < ii.+1)%N -> (j < N)%N ->
              at_ s1'.2 j = Ok (sol_u (qp_sol_ st) j)] ->
        returns (at_ (nx_ st) ii >>= fun nx => at_ (x_ st) ii >>= fun px =>
                 copy_state nx px (sol_x (qp_sol_ st) ii) s1') (Inv ii.+1).
      case=> t1 t2 t3 Htx Htu; rewrite Enx.
      case: ii le_ii {Hsx Hsu} Htx Htu => [_|ii le_ii] Htx Htu.
        rewrite [at_ (_ :: _) 0]/= bind_Ok.
        apply: returns_bind (returns_at nullptr _) _ => [|px _].
          by rewrite sx.
        rewrite /copy_state; case: s1' t1 t2 t3 Htx Htu => [[hx hpi] hu] /=.
        move=> t1 t2 t3 Htx Htu; apply: returns_Ok; split=> // j.
        by case: j => [|j] //; rewrite ltnS ltn0.
      have -> : at_ (0 :: nseq N (Posz n)) ii.+1 = Ok (Posz n).
        by rewrite (at_nth 0) /= ?size_nseq // nth_nseq le_ii.
      rewrite bind_Ok Hx // bind_Ok.
      have lt' : (ii.+1 < N.+1)%N by rewrite ltnS.
      apply: returns_weaken (copy_state_at _ t1 lt') _ => s' [E1 E2 sz H].
      split; rewrite ?E1 ?E2 // => j; rewrite H.
      case: eqP => [-> //|/eqP ne_j] /andP[j_gt0].
      by rewrite ltnS leq_eqVlt (negbTE ne_j) /= => lt_j; apply: Htx; rewrite j_gt0.
    move: le_ii; rewrite leq_eqVlt => /orP[/eqP Eii|lt_ii].
      have -> : at_ (nu_ st) ii = Ok 0.
        rewrite Enu Eii (at_nth 0) ?size_rcons ?size_nseq //.
        by rewrite nth_rcons size_nseq ltnn eqxx.
      rewrite bind_Ok.
      apply: returns_bind (returns_at nullptr _) _ => [|pu _].
        by rewrite su Eii.
      rewrite copy_control_none bind_Ok.
      by apply: Hstate; split=> // j _ lt_j; apply: Hsu => //; rewrite Eii.
    have -> : at_ (nu_ st) ii = Ok (Posz m).
      have lt' : (ii < N.+1)%N by rewrite ltnS ltnW.
      by rewrite Enu (at_nth 0) ?size_rcons ?size_nseq // nth_rcons size_nseq
                 lt_ii nth_nseq lt_ii.
    rewrite bind_Ok Hu // bind_Ok.
    apply: returns_bind (copy_control_at _ s3 lt_ii) _ => s' [E1 sz H].
    apply: Hstate; rewrite E1; split=> // j; rewrite H ltnS leq_eqVlt.
    by case: eqP => [-> //|_] /= lt_j ltN; apply: Hsu.
  move=> s [s1 s2 s3 Hsx Hsu].
  apply: returns_weaken (_ : returns _ (fun s' =>
           [/\ s'.1.1 = s.1.1, s'.2 = s.2 & size s'.1.2 = N])) _; last first.
    by move=> s' [E1 E2 sz]; split; rewrite ?E1 ?E2.
  apply: (@returns_for_loop _ _ (fun _ s' =>
           [/\ s'.1.1 = s.1.1, s'.2 = s.2 & size s'.1.2 = N])) => //.
  move=> ii s' /andP[_ lt_ii] [E1 E2 sz].
  apply: returns_bind (returns_at 0 _) _ => [|nx _].
    by rewrite Enx /= size_nseq.
  rewrite Hp // bind_Ok.
  apply: returns_weaken (copy_state_pi _ _ sz lt_ii) _ => s'' [F1 F2 sz'].
  by split; rewrite ?F1 ?F2.
case=> [[hx hpi] hu] /= [s1 s2 s3 Hsx Hsu]; apply: returns_Ok; split=> //.
- exact: configured_with_solution.
- by move=> j lt_j; apply: Hsu => //; apply: ltnW.
Qed.

Lemma setProblem_fresh fresh junk N (pb : Problem) :
  well_formed N pb ->
  returns (setProblem fresh pb (init junk)) (fun st =>
    [/\ configured N st, lqocProblem_ st = Some pb,
        nx_ st = 0 :: nseq N (Posz n) & nu_ st = rcons (nseq N (Posz m)) 0]).
Proof.
move=> wf; rewrite /setProblem.
have [st E [_ cfg Epb]] := setProblemImpl_transcribed fresh
  (with_solution (init junk) (hx_ (init junk)) (hpi_ (init junk))
     (hu_ (init junk)) (qp_sol_ (init junk)) (Some pb)) wf.
have rs (T : Type) k (d : T) : resize k d [::] = nseq k d.
  by rewrite /resize /= subn0.
suff [Enx Enu] : nx_ st = 0 :: nseq N (Posz n)
                 /\ nu_ st = rcons (nseq N (Posz m)) 0 by exists st.
move: E; have [[_ EK _ _] _] := well_formed_sizes wf.
rewrite /setProblemImpl /LQOCProblem.getNumberOfStages EK.
have [st1 -> [Ex Eu]] := changeNumberOfStages_dims fresh N
  (with_solution (init junk) (hx_ (init junk)) (hpi_ (init junk))
     (hu_ (init junk)) (qp_sol_ (init junk)) (Some pb)).
rewrite bind_Ok => /setupHPIPM_dims[-> ->]; rewrite Ex Eu /=.
by rewrite !rs take_nseq //= drop0.
Qed.

(** X19: on a newly constructed interface, once a problem of horizon [N]
    is set and solved, getSolutionState returns the problem's initial state
    followed by the solver's states of stages 1 to [N], and
    getSolutionControl returns the solver's controls of stages 0 to
    [N - 1]: nothing but the first state is replaced on the way back. *)
Theorem solution_is_the_solvers_answer fresh junk sol N (pb : Problem) :
  well_formed N pb ->
  returns (setProblem fresh pb (init junk)) (fun st =>
    returns (getSolutionState (solve sol st)) (fun r =>
      [/\ size r.1 = N.+1, at_ r.1 0 = at_ (LQOCProblem.x_ pb) 0
        & forall j, (0 < j <= N)%N -> at_ r.1 j = Ok (sol_x sol j)])
    /\ returns (getSolutionControl (solve sol st)) (fun r =>
         size r.1 = N
         /\ forall j, (j < N)%N -> at_ r.1 j = Ok (sol_u sol j))).
Proof.
move=> wf; have [[_ _ sx _] _] := well_formed_sizes wf.
apply: returns_weaken (setProblem_fresh fresh junk wf) _.
move=> st [cfg Epb Enx Enu].
have cfg' : configured N (solve sol st).
  by apply: configured_with_solution => //; case: cfg.
have Hcvt := @d_cvt_ocp_qp_sol_to_colmaj_fresh N (solve sol st) cfg' Enx Enu.
split.
  apply: returns_bind Hcvt _ => st1 [cfg1 -> Hsx _]; rewrite /= Epb.
  apply: returns_bind (returns_at 0 _) _ => [|x0 Ex0]; first by rewrite sx.
  apply: returns_bind (returns_assign _ _) _ => [|hx [shx Hhx]].
    by rewrite (cfg_hx cfg1).
  apply: returns_Ok; rewrite /= shx (cfg_hx cfg1); split=> // [|j].
    by rewrite Hhx Ex0 [RHS](at_nth 0) ?sx.
  by case: j => [|j] // lt_j; rewrite Hhx /=; apply: Hsx.
apply: returns_bind Hcvt _ => st1 [cfg1 _ _ Hsu].
by apply: returns_Ok; rewrite /= (cfg_hu cfg1).
Qed.

End SolutionRoundTrip.

(** The answer read back on the horizon-2 example. *)
Lemma solution_is_the_solvers_answer_witness :
  HPIPMInterface.well_formed 2 example_problem
  /\ returns
       (HPIPMInterface.setProblem example_fresh example_problem
          (HPIPMInterface.init example_solution))
       (fun st =>
          returns
            (HPIPMInterface.getSolutionState
               (HPIPMInterface.solve example_answer st))
            (fun r =>
               [/\ size r.1 = 3,
                   at_ r.1 0 = at_ (LQOCProblem.x_ example_problem) 0
                 & forall j, (0 < j <= 2)%N ->
                     at_ r.1 j = Ok (HPIPMInterface.sol_x example_answer j)])
          /\ returns
               (HPIPMInterface.getSolutionControl
                  (HPIPMInterface.solve example_answer st))
               (fun r =>
                  size r.1 = 2
                  /\ forall j, (j < 2)%N ->
                       at_ r.1 j
                       = Ok (HPIPMInterface.sol_u example_answer j))).
Proof.
split; first by [].
exact: (@solution_is_the_solvers_answer rat 1 1 example_fresh
          example_solution example_answer 2 example_problem isT).
Defined.

(** ** What rounding changes

    The numerical statements above are over an exact field. The lemmas
    of this section evaluate the binary64 versions of the same code on
    explicit inputs, and mark where a statement that holds in exact
    arithmetic stops holding for [double]. *)

Section Binary64Facts.

Import PrimFloat.
Import BinNums BinInt.
Import Binary64.

(** The Gramian of [A = B = I] with tolerance 2 and three iterations:
    every value is a small integer, nothing is rounded, and the loop runs
    to the end as it does in exact arithmetic. *)
Lemma gramian_identity_binary64 :
  LTISystem.computeControllabilityGramian 2 2 example_identity 3 2
  = [:: [:: 3%float; 0%float]; [:: 0%float; 3%float]].
Proof. by vm_compute. Qed.

(** With [B = 0] and the default tolerance the loop stops in its first
    pass and returns zero; with tolerance 0 it runs on, [A_prev]
    overflows and the result is not a number. *)
Lemma gramian_zero_input_binary64 :
  LTISystem.computeControllabilityGramian 1 1 example_zero_input
    default_max_iters default_tolerance
  = [:: [:: 0%float]]
  /\ LTISystem.computeControllabilityGramian 1 1 example_zero_input
       default_max_iters 0
     = [:: [:: nan]].
Proof. by vm_compute. Qed.

(** [A = 0], [B = I] of dimensions 2 and 3 are reported controllable. *)
Lemma isControllable_identity_binary64 :
  LTISystem.isControllable 2 2
    (LTISystem.make 2 2 (Zero 2 2) (Identity 2) None None) (Zero 2 4)
  = Ok true
  /\ LTISystem.isControllable 3 3
       (LTISystem.make 3 3 (Zero 3 3) (Identity 3) None None) (Zero 3 9)
     = Ok true.
Proof. by vm_compute. Qed.

(** The first-stage offset of the horizon-2 example ([b_0 = 0],
    [x_1 = 1], [B_0 = 1], [u_0 = 0]) is 1 in binary64 as well. *)
Lemma first_stage_offset_binary64 :
  HPIPMInterface.hb0_value 1 1 [:: [:: 0%float]] [:: [:: 1%float]]
    [:: [:: 1%float]] [:: [:: 0%float]]
  = [:: [:: 1%float]].
Proof. by vm_compute. Qed.

(** An interior offset that rounding leaves: [b_i = 0],
    [A_i = x_i = 1 + 2^-30], [B_i = 1], [u_i = -2^-60] and
    [x_(i+1) = 1 + 2^-29]. The trajectory satisfies the dynamics, as real
    numbers (the values times [2^60] are [a], [u] and [x'], and
    [x' * 2^60 = a * a + 2^60 * u]) and as computed; the offset is
    [2^-60]. *)
Lemma interior_offset_rounding_residue :
  [/\ exists a u x',
        [/\ scaled 60 0x1.00000004p+0%float = Some a,
            scaled 60 (- 0x1p-60)%float = Some u,
            scaled 60 0x1.00000008p+0%float = Some x'
          & (x' * 2 ^ 60 = a * a + 2 ^ 60 * u)%Z],
      plus 1 1
        (times 1 1 1 [:: [:: 0x1.00000004p+0%float]]
           [:: [:: 0x1.00000004p+0%float]])
        (times 1 1 1 [:: [:: 1%float]] [:: [:: (- 0x1p-60)%float]])
      = [:: [:: 0x1.00000008p+0%float]]
    & HPIPMInterface.bEigen_value 1 1 [:: [:: 0%float]]
        [:: [:: 0x1.00000008p+0%float]] [:: [:: 0x1.00000004p+0%float]]
        [:: [:: 0x1.00000004p+0%float]] [:: [:: 1%float]]
        [:: [:: (- 0x1p-60)%float]]
      = [:: [:: 0x1p-60%float]]].
Proof.
split; [| by vm_compute | by vm_compute].
by do 3!eexists; split; vm_compute; reflexivity.
Qed.

(** C10 as stated fails for [double]. With [A = 0],
    [B = (1 + 2^-30, 1)^T] and the default arguments the Gramian
    returned is [[1 + 2^-29, 1 + 2^-30], [1 + 2^-30, 1]], the square of
    [1 + 2^-30] rounded, and its quadratic form at
    [v = (2^30, -(2^30 + 1))] is negative ([-2^60] with the entries taken
    times [2^60]; the determinant is [-2^-60]): it is not positive
    semidefinite. With [A = [[0.9, 0.1], [0.3, 0.7]]], [B = (1, 3)^T] the
    Gramian after two iterations is not symmetric. *)
Lemma gramian_rounding_breaks_psd_and_symmetry :
  [/\ LTISystem.computeControllabilityGramian 2 1 example_rounded_square
        default_max_iters default_tolerance
      = [:: [:: 0x1.00000008p+0%float; 0x1.00000004p+0%float];
            [:: 0x1.00000004p+0%float; 1%float]],
      quadratic_form 60
        (LTISystem.computeControllabilityGramian 2 1 example_rounded_square
           default_max_iters default_tolerance)
        [:: 2 ^ 30; - (2 ^ 30 + 1)]%Z
      = Some (- 2 ^ 60)%Z
    & let G := LTISystem.computeControllabilityGramian 2 1
                 example_asymmetric 2 default_tolerance in
      eqb (coeff G 0 1) (coeff G 1 0) = false].
Proof. by split; vm_compute. Qed.


End Binary64Facts.
